(** * One-way folder synchronisation (os/FileSync/main.py)

    A shallow embedding of [FolderSynchronizer]: the filesystem is a tree of
    files and directories, every method takes the filesystem it runs on and
    returns the filesystem it leaves together with the log records it wrote.
    The library calls the class relies on ([Path.mkdir], [os.walk],
    [shutil.copy2], [shutil.rmtree], [hashlib.sha256]) are modelled from their
    documented behaviour; the methods of the class are translated line by
    line. *)

From Stdlib Require Import List String ZArith Bool Arith Lia Permutation ListSet.
From Stdlib.Strings Require Import Byte.
Import ListNotations.

Set Warnings "-register-all".

(** ** Paths *)

(** A resolved absolute path is the list of its components below [/]; a
    relative path is the list of its components below some root. [p / q] of
    pathlib is list concatenation. *)
Definition path := list string.

Definition path_eq_dec : forall a b : path, {a = b} + {a <> b} :=
  list_eq_dec string_dec.

(** [is_prefix a b]: [a] is [b] or one of its ancestors. *)
Fixpoint is_prefix (a b : path) : bool :=
  match a, b with
  | [], _ => true
  | _ :: _, [] => false
  | x :: a', y :: b' => if string_dec x y then is_prefix a' b' else false
  end.

(** [PurePath.relative_to]: [None] stands for the [ValueError] raised when
    [base] is not an ancestor of [p]. *)
Fixpoint relative_to (p base : path) : option path :=
  match base, p with
  | [], _ => Some p
  | _ :: _, [] => None
  | b :: base', c :: p' => if string_dec b c then relative_to p' base' else None
  end.

(** [os.path.basename]. *)
Definition basename (p : path) : string := last p EmptyString.

(** ** The filesystem *)

(** A file carries its read permission, its modification time and its bytes;
    a directory carries its list permission (the permission [os.scandir]
    needs) and its entries. Permission to write and to search is always
    granted: an operation that writes fails only for the shape of the tree
    (a file where a directory is needed, a directory where a file is).
    Symbolic links are out of scope. *)
Inductive node : Type :=
| File (readable : bool) (mtime : Z) (data : list byte)
| Dir (listable : bool) (entries : list (string * node)).

Definition entries_t := list (string * node).

Fixpoint get (c : string) (es : entries_t) : option node :=
  match es with
  | [] => None
  | (c', n) :: es' => if string_dec c c' then Some n else get c es'
  end.

Fixpoint put (c : string) (n : node) (es : entries_t) : entries_t :=
  match es with
  | [] => [(c, n)]
  | (c', n') :: es' =>
      if string_dec c c' then (c, n) :: es' else (c', n') :: put c n es'
  end.

Definition del (c : string) (es : entries_t) : entries_t :=
  filter (fun e => if string_dec c (fst e) then false else true) es.

(** Names are unique inside every directory. *)
Fixpoint nodupb (l : list string) : bool :=
  match l with
  | [] => true
  | x :: l' => negb (existsb (String.eqb x) l') && nodupb l'
  end.

Fixpoint wf (n : node) : bool :=
  match n with
  | File _ _ _ => true
  | Dir _ es =>
      nodupb (map fst es) &&
      (fix all (l : entries_t) : bool :=
         match l with
         | [] => true
         | (_, m) :: l' => wf m && all l'
         end) es
  end.

(** The node a path leads to. Going through a directory needs its search
    permission only, which the model always grants. *)
Fixpoint lookup (fs : node) (p : path) : option node :=
  match p with
  | [] => Some fs
  | c :: p' =>
      match fs with
      | File _ _ _ => None
      | Dir _ es =>
          match get c es with
          | Some n => lookup n p'
          | None => None
          end
      end
  end.

(** [store fs p o] makes [o] the entry at [p]: [Some n] attaches [n] there
    (replacing what was there), [None] detaches the entry. The parent of [p]
    has to be an existing directory. *)
Fixpoint store (fs : node) (p : path) (o : option node) : option node :=
  match p with
  | [] => o
  | c :: p' =>
      match fs with
      | File _ _ _ => None
      | Dir l es =>
          match p' with
          | [] =>
              Some (Dir l (match o with Some n => put c n es | None => del c es end))
          | _ :: _ =>
              match get c es with
              | Some m =>
                  match store m p' o with
                  | Some m' => Some (Dir l (put c m' es))
                  | None => None
                  end
              | None => None
              end
          end
      end
  end.

(** [Path.exists], [Path.is_dir], [Path.is_file], [Path.stat().st_size]. *)
Definition exists_ (fs : node) (p : path) : bool :=
  match lookup fs p with Some _ => true | None => false end.

Definition is_dir (fs : node) (p : path) : bool :=
  match lookup fs p with Some (Dir _ _) => true | _ => false end.

Definition is_file (fs : node) (p : path) : bool :=
  match lookup fs p with Some (File _ _ _) => true | _ => false end.

(** ** The platform

    What the program takes from the interpreter and the operating system:
    the SHA-256 object of [hashlib], the size [stat] reports for a directory
    and the order in which a [set] is iterated. *)
Class Platform := {
  hash_state : Type;
  sha256 : hash_state;
  update : hash_state -> list byte -> hash_state;
  hexdigest : hash_state -> string;
  update_nil : forall h, update h [] = h;
  update_app : forall h a b, update (update h a) b = update h (a ++ b);
  hexdigest_nonempty : forall h, hexdigest h <> EmptyString;
  dir_st_size : entries_t -> nat;
  iter : list path -> list path;
  iter_perm : forall s, Permutation (iter s) s
}.

(** The digest of a byte stream fed to the hash object in one piece. *)
Definition digest `{Platform} (d : list byte) : string :=
  hexdigest (update sha256 d).

(** ** Library calls *)

(** [open(p, "rb")] followed by reading: the bytes, or [None] for the
    [OSError] raised on a missing path, a directory or a file without read
    permission. *)
Definition open_rb (fs : node) (p : path) : option (list byte) :=
  match lookup fs p with
  | Some (File true _ d) => Some d
  | _ => None
  end.

(** [Path.mkdir(parents=True, exist_ok=True)]: every missing component is
    created; [None] stands for the [FileExistsError] or [NotADirectoryError]
    raised when a component exists and is not a directory, in which case
    nothing has been created. *)
Fixpoint mkdir_parents (fs : node) (p : path) : option node :=
  match fs with
  | File _ _ _ => None
  | Dir l es =>
      match p with
      | [] => Some fs
      | c :: p' =>
          match mkdir_parents
                  (match get c es with Some n => n | None => Dir true [] end) p' with
          | Some n' => Some (Dir l (put c n' es))
          | None => None
          end
      end
  end.

(** [os.unlink]. *)
Definition unlink (fs : node) (p : path) : option node :=
  match lookup fs p with
  | Some (File _ _ _) => store fs p None
  | _ => None
  end.

(** What [shutil.rmtree] leaves of a node: [None] when all of it is removed,
    [Some n'] when the removal stopped at the first directory that cannot be
    listed, the entries handled before it being gone already. *)
Fixpoint rmtree_node (n : node) : option node :=
  match n with
  | File _ _ _ => None
  | Dir false _ => Some n
  | Dir true es =>
      match (fix entries (l : entries_t) : entries_t :=
               match l with
               | [] => []
               | (c, m) :: l' =>
                   match rmtree_node m with
                   | None => entries l'
                   | Some m' => (c, m') :: l'
                   end
               end) es with
      | [] => None
      | rest => Some (Dir true rest)
      end
  end.

(** [shutil.rmtree(p)]: the filesystem it leaves, and whether it raised. It
    raises on what is not a directory, on a directory inside [p] that cannot
    be listed, and on [/], which cannot be detached. *)
Definition rmtree (fs : node) (p : path) : node * bool :=
  match lookup fs p with
  | Some (Dir l es) =>
      match rmtree_node (Dir l es) with
      | None =>
          match store fs p None with
          | Some fs' => (fs', false)
          | None => (fs, true)
          end
      | Some n' =>
          match store fs p (Some n') with
          | Some fs' => (fs', true)
          | None => (fs, true)
          end
      end
  | _ => (fs, true)
  end.

(** [shutil.copy2(src, dst)]: a directory as destination stands for the file
    of the same name inside it; the bytes, the mode and the modification time
    are copied. [None] stands for the exception raised when source and
    destination are the same file, when the source cannot be opened for
    reading or when the destination cannot be opened for writing. *)
Definition copy2 (fs : node) (src dst : path) : option node :=
  let dst := if is_dir fs dst then dst ++ [basename src] else dst in
  if path_eq_dec src dst then None else
  match lookup fs src with
  | Some (File true m d) =>
      match lookup fs dst with
      | Some (Dir _ _) => None
      | _ => store fs dst (Some (File true m d))
      end
  | _ => None
  end.

(** [os.walk(top)], top-down: one triple (directory, names of its
    sub-directories, names of its files) per directory that can be listed.
    With the default [onerror=None] a directory whose listing fails is
    skipped without any exception reaching the caller. *)
Definition dirs_of (es : entries_t) : list string :=
  map fst (filter (fun e => match snd e with Dir _ _ => true | _ => false end) es).

Definition files_of (es : entries_t) : list string :=
  map fst (filter (fun e => match snd e with File _ _ _ => true | _ => false end) es).

Fixpoint walk_node (top : path) (n : node) : list (path * list string * list string) :=
  match n with
  | File _ _ _ => []
  | Dir false _ => []
  | Dir true es =>
      (top, dirs_of es, files_of es) ::
      (fix sub (l : entries_t) : list (path * list string * list string) :=
         match l with
         | [] => []
         | (c, m) :: l' => walk_node (top ++ [c]) m ++ sub l'
         end) es
  end.

Definition os_walk (fs : node) (top : path) : list (path * list string * list string) :=
  match lookup fs top with
  | Some n => walk_node top n
  | None => []
  end.

(** ** Log records *)

Inductive level := INFO | ERROR.

Inductive message :=
| Starting_synchronization (source replica : path)
| Source_folder_does_not_exist (source : path)
| COPIED (src dst : path)
| CREATED_DIRECTORY (p : path)
| REMOVED_FILE (p : path)
| REMOVED_DIRECTORY (p : path)
| Error_reading_file (p : path)
| Error_scanning_directory (p : path)
| Error_copying (src dst : path)
| Error_removing (p : path)
| Error_creating_directory (p : path)
| Synchronization_completed.

Definition record := (level * message)%type.

(** ** Control flow *)

(** A block either runs to its end or is left by an exception; in both
    cases the state it has built so far remains. *)
Inductive outcome (S : Type) : Type :=
| Done (s : S)
| Raised (s : S).

Arguments Done {S} s.
Arguments Raised {S} s.

(** [for a in l: body] over a state, left at the first exception. *)
Fixpoint for_ {A S : Type} (l : list A) (body : A -> S -> outcome S) (s : S) : outcome S :=
  match l with
  | [] => Done s
  | a :: l' =>
      match body a s with
      | Done s' => for_ l' body s'
      | Raised s' => Raised s'
      end
  end.

(** ** The class *)

Record FolderSynchronizer := {
  source_path : path;
  replica_path : path;
  log_file_path : path
}.

Section Methods.

Context `{P : Platform}.

(** The loop [for chunk in iter(lambda: f.read(4096), b""): update(chunk)]
    over the bytes that remain to be read. [fuel] bounds the number of
    reads; [calculate_file_hash] gives it one more than the length. *)
Definition CHUNK : nat := 4096.

Fixpoint read_chunks (fuel : nat) (h : hash_state) (rest : list byte) : hash_state :=
  match fuel with
  | 0 => h
  | S k =>
      match firstn CHUNK rest with
      | [] => h
      | chunk => read_chunks k (update h chunk) (skipn CHUNK rest)
      end
  end.

Definition calculate_file_hash (fs : node) (file_path : path) : string * list record :=
  match open_rb fs file_path with
  | Some d => (hexdigest (read_chunks (S (List.length d)) sha256 d), [])
  | None => (EmptyString, [(ERROR, Error_reading_file file_path)])
  end.

(** One [structure.add((root_path / name).relative_to(path))]. *)
Definition add_relative (path_ root_path : path) (name : string)
    (structure : list path) : outcome (list path) :=
  match relative_to (root_path ++ [name]) path_ with
  | Some rel_path => Done (set_add path_eq_dec rel_path structure)
  | None => Raised structure
  end.

(** The body of [for root, dirs, files in os.walk(path)]. *)
Definition add_listing (path_ : path) (triple : path * list string * list string)
    (structure : list path) : outcome (list path) :=
  let '(root_path, dirs, files) := triple in
  match for_ dirs (add_relative path_ root_path) structure with
  | Done structure => for_ files (add_relative path_ root_path) structure
  | Raised structure => Raised structure
  end.

Definition get_directory_structure (fs : node) (path_ : path) : list path * list record :=
  if negb (exists_ fs path_) then ([], [])
  else
    match for_ (os_walk fs path_) (add_listing path_) [] with
    | Done structure => (structure, [])
    | Raised structure => (structure, [(ERROR, Error_scanning_directory path_)])
    end.

(** [stat().st_size]; only asked of paths that exist. *)
Definition st_size (fs : node) (p : path) : nat :=
  match lookup fs p with
  | Some (File _ _ d) => List.length d
  | Some (Dir _ es) => dir_st_size es
  | None => 0
  end.

Definition files_are_identical (fs : node) (source_file replica_file : path)
    : bool * list record :=
  if negb (exists_ fs source_file && exists_ fs replica_file) then (false, [])
  else if negb (st_size fs source_file =? st_size fs replica_file) then (false, [])
  else
    let '(h1, l1) := calculate_file_hash fs source_file in
    let '(h2, l2) := calculate_file_hash fs replica_file in
    (String.eqb h1 h2, l1 ++ l2).

Definition copy_file (fs : node) (source_file replica_file : path) : node * list record :=
  match mkdir_parents fs (removelast replica_file) with
  | Some fs1 =>
      match copy2 fs1 source_file replica_file with
      | Some fs2 => (fs2, [(INFO, COPIED source_file replica_file)])
      | None => (fs1, [(ERROR, Error_copying source_file replica_file)])
      end
  | None => (fs, [(ERROR, Error_copying source_file replica_file)])
  end.

Definition remove_path (fs : node) (p : path) : node * list record :=
  if is_file fs p then
    match unlink fs p with
    | Some fs' => (fs', [(INFO, REMOVED_FILE p)])
    | None => (fs, [(ERROR, Error_removing p)])
    end
  else if is_dir fs p then
    match rmtree fs p with
    | (fs', false) => (fs', [(INFO, REMOVED_DIRECTORY p)])
    | (fs', true) => (fs', [(ERROR, Error_removing p)])
    end
  else (fs, []).

Definition create_directory (fs : node) (dir_path : path) : node * list record :=
  match mkdir_parents fs dir_path with
  | Some fs' => (fs', [(INFO, CREATED_DIRECTORY dir_path)])
  | None => (fs, [(ERROR, Error_creating_directory dir_path)])
  end.

Variable self : FolderSynchronizer.

(** The body of the first loop of [synchronize]. *)
Definition process_source_item (fs : node) (rel_path : path) : node * list record :=
  let source_item := source_path self ++ rel_path in
  let replica_item := replica_path self ++ rel_path in
  if is_dir fs source_item then
    if negb (exists_ fs replica_item) then create_directory fs replica_item
    else (fs, [])
  else
    if negb (exists_ fs replica_item) then copy_file fs source_item replica_item
    else
      let '(identical, l) := files_are_identical fs source_item replica_item in
      if negb identical then
        let '(fs', l') := copy_file fs source_item replica_item in (fs', l ++ l')
      else (fs, l).

Fixpoint additive_pass (items : list path) (fs : node) : node * list record :=
  match items with
  | [] => (fs, [])
  | rel_path :: rest =>
      let '(fs1, l1) := process_source_item fs rel_path in
      let '(fs2, l2) := additive_pass rest fs1 in
      (fs2, l1 ++ l2)
  end.

(** The body of the second loop of [synchronize]. *)
Definition process_replica_item (source_structure : list path) (fs : node)
    (rel_path : path) : node * list record :=
  if set_mem path_eq_dec rel_path source_structure then (fs, [])
  else remove_path fs (replica_path self ++ rel_path).

Fixpoint subtractive_pass (source_structure items : list path) (fs : node)
    : node * list record :=
  match items with
  | [] => (fs, [])
  | rel_path :: rest =>
      let '(fs1, l1) := process_replica_item source_structure fs rel_path in
      let '(fs2, l2) := subtractive_pass source_structure rest fs1 in
      (fs2, l1 ++ l2)
  end.

(** [synchronize]: [Raised] when [self.replica_path.mkdir], which no handler
    guards, raises. *)
Definition synchronize (fs : node) : outcome (node * list record) :=
  let start := [(INFO, Starting_synchronization (source_path self) (replica_path self))] in
  if negb (exists_ fs (source_path self)) then
    Done (fs, start ++ [(ERROR, Source_folder_does_not_exist (source_path self))])
  else
    match mkdir_parents fs (replica_path self) with
    | None => Raised (fs, start)
    | Some fs0 =>
        let '(source_structure, l1) := get_directory_structure fs0 (source_path self) in
        let '(replica_structure, l2) := get_directory_structure fs0 (replica_path self) in
        let '(fs1, l3) := additive_pass (iter source_structure) fs0 in
        let '(fs2, l4) := subtractive_pass source_structure (iter replica_structure) fs1 in
        Done (fs2, start ++ l1 ++ l2 ++ l3 ++ l4 ++ [(INFO, Synchronization_completed)])
    end.

End Methods.

(** ** Observations on a filesystem *)

(** What [stat] tells about one path, without what lies below it. *)
Inductive entry : Type :=
| EFile (readable : bool) (mtime : Z) (data : list byte)
| EDir (listable : bool).

Definition shallow (n : node) : entry :=
  match n with
  | File r m d => EFile r m d
  | Dir l _ => EDir l
  end.

Definition stat (fs : node) (p : path) : option entry :=
  match lookup fs p with
  | Some n => Some (shallow n)
  | None => None
  end.

(** Every directory of a node can be listed. *)
Fixpoint all_listable (n : node) : bool :=
  match n with
  | File _ _ _ => true
  | Dir l es =>
      l && (fix all (k : entries_t) : bool :=
              match k with
              | [] => true
              | (_, m) :: k' => all_listable m && all k'
              end) es
  end.

(** A log without error records. *)
Definition is_error (r : record) : bool :=
  match fst r with ERROR => true | INFO => false end.

Definition no_errors (log : list record) : bool :=
  forallb (fun r => negb (is_error r)) log.

(** The records that report a change of the replica. *)
Definition is_mutation (r : record) : bool :=
  match snd r with
  | COPIED _ _ | CREATED_DIRECTORY _ | REMOVED_FILE _ | REMOVED_DIRECTORY _ => true
  | _ => false
  end.

Definition no_mutations (log : list record) : bool :=
  forallb (fun r => negb (is_mutation r)) log.

(** The set of relative paths the enumerator returns for a root. *)
Definition snapshot (fs : node) (root : path) : list path :=
  fst (get_directory_structure fs root).

(** A replica entry agrees with a source entry: both are directories, or
    both are files with the same bytes, the replica file readable when the
    source file is. *)
Definition same_entry (a b : option entry) : Prop :=
  match a, b with
  | Some (EDir _), Some (EDir _) => True
  | Some (EFile r1 _ d1), Some (EFile r2 _ d2) => d1 = d2 /\ (r1 = true -> r2 = true)
  | _, _ => False
  end.

(** The replica mirrors the source: it is a directory, both roots enumerate
    to the same relative paths, and the entries at each of them agree. *)
Definition converged (self : FolderSynchronizer) (fs : node) : Prop :=
  is_dir fs (replica_path self) = true /\
  (forall p, In p (snapshot fs (source_path self)) <->
             In p (snapshot fs (replica_path self))) /\
  (forall p, In p (snapshot fs (source_path self)) ->
             same_entry (stat fs (source_path self ++ p))
                        (stat fs (replica_path self ++ p))).

(** [n] calls of [synchronize] in a row, as the driver makes them; an
    exception ends the run. *)
Fixpoint repeat_synchronize `{Platform} (self : FolderSynchronizer) (n : nat)
    (fs : node) : node :=
  match n with
  | 0 => fs
  | S k =>
      match synchronize self fs with
      | Done (fs', _) => repeat_synchronize self k fs'
      | Raised (fs', _) => fs'
      end
  end.

(** ** A platform to run the model on

    The hash object accumulates the bytes it is fed and prints them behind a
    one-letter tag; directories report 4096 bytes; sets are iterated in
    insertion order. *)
Definition sample_hexdigest (h : list byte) : string :=
  String.append "s" (string_of_list_byte h).

Lemma sample_update_nil (h : list byte) : h ++ [] = h.
Proof. apply app_nil_r. Qed.

Lemma sample_update_app (h a b : list byte) : (h ++ a) ++ b = h ++ (a ++ b).
Proof. symmetry; apply app_assoc. Qed.

Lemma sample_hexdigest_nonempty (h : list byte) : sample_hexdigest h <> EmptyString.
Proof. unfold sample_hexdigest; cbn; discriminate. Qed.

Lemma sample_iter_perm (s : list path) : Permutation s s.
Proof. apply Permutation_refl. Qed.

Definition sample_platform : Platform := {|
  hash_state := list byte;
  sha256 := [];
  update := fun h d => h ++ d;
  hexdigest := sample_hexdigest;
  update_nil := sample_update_nil;
  update_app := sample_update_app;
  hexdigest_nonempty := sample_hexdigest_nonempty;
  dir_st_size := fun _ => 4096;
  iter := fun s => s;
  iter_perm := sample_iter_perm
|}.

Definition text (s : string) : node := File true 0 (list_byte_of_string s).

(** ** Auxiliary notions *)

(** [listed n q]: [q] leads from [n] to a directory, and that directory and
    every directory on the way to it can be listed. These are the
    directories [os.walk] reports. *)
Fixpoint listed (n : node) (q : path) : bool :=
  match n with
  | Dir true es =>
      match q with
      | [] => true
      | c :: q' =>
          match get c es with
          | Some m => listed m q'
          | None => false
          end
      end
  | _ => false
  end.

(** The paths the second loop hands to [remove_path], in order. *)
Definition removal_targets (self : FolderSynchronizer) (S items : list path) : list path :=
  map (fun rel_path => replica_path self ++ rel_path)
      (filter (fun rel_path => negb (set_mem path_eq_dec rel_path S)) items).

Fixpoint remove_paths (targets : list path) (fs : node) : node * list record :=
  match targets with
  | [] => (fs, [])
  | t :: rest =>
      let '(fs1, l1) := remove_path fs t in
      let '(fs2, l2) := remove_paths rest fs1 in
      (fs2, l1 ++ l2)
  end.

Definition is_edir (e : entry) : bool :=
  match e with EDir _ => true | EFile _ _ _ => false end.

(** A replica entry the pass is done with: a directory that can be listed
    for a source directory, a readable file with the same bytes for a
    readable source file. *)
Definition matches (a b : option entry) : Prop :=
  match a, b with
  | Some (EDir _), Some (EDir true) => True
  | Some (EFile true _ d1), Some (EFile true _ d2) => d1 = d2
  | _, _ => False
  end.

(** The record [synchronize] opens its log with. *)
Definition start_record (self : FolderSynchronizer) : record :=
  (INFO, Starting_synchronization (source_path self) (replica_path self)).

(** * Sample filesystems *)

Open Scope string_scope.

(** Source and replica side by side below [/data]. *)
Definition side_by_side : FolderSynchronizer :=
  {| source_path := ["data"; "source"];
     replica_path := ["data"; "replica"];
     log_file_path := ["data"; "sync.log"] |}.


(** A replica with content and no source. *)
Definition fs_no_source : node :=
  Dir true [("data", Dir true
    [("replica", Dir true [("a.txt", text "a"); ("b", Dir true [("c.txt", text "c")])])])].

(** An empty source and a replica with [a.txt] and [b/c.txt]. *)
Definition fs_empty_source : node :=
  Dir true [("data", Dir true
    [("source", Dir true []);
     ("replica", Dir true [("a.txt", text "a"); ("b", Dir true [("c.txt", text "c")])])])].

(** A source with [x.txt] and [docs/report.pdf]; the replica has another
    [x.txt] of the same length and entries the source lacks. *)
Definition fs_typical : node :=
  Dir true [("data", Dir true
    [("source", Dir true [("x.txt", text "hello");
                          ("docs", Dir true [("report.pdf", text "%PDF")])]);
     ("replica", Dir true [("x.txt", text "world"); ("a.txt", text "a");
                           ("b", Dir true [("c.txt", text "c")])])])].

(** A directory in the source where the replica has a file. *)
Definition fs_dir_over_file : node :=
  Dir true [("data", Dir true
    [("source", Dir true [("a", Dir true [])]);
     ("replica", Dir true [("a", text "x")])])].

(** A file in the source where the replica has a directory. *)
Definition fs_file_over_dir : node :=
  Dir true [("data", Dir true
    [("source", Dir true [("a", text "hello")]);
     ("replica", Dir true [("a", Dir true [])])])].

(** Two files of the same size, neither of which can be read. *)
Definition fs_both_unreadable : node :=
  Dir true [("data", Dir true
    [("source", Dir true [("f", File false 0 (list_byte_of_string "new!"))]);
     ("replica", Dir true [("f", File false 0 (list_byte_of_string "old."))])])].

(** The same bytes twice, the source copy without read permission. *)
Definition fs_one_unreadable : node :=
  Dir true [("data", Dir true
    [("source", Dir true [("f", File false 0 (list_byte_of_string "same"))]);
     ("replica", Dir true [("f", File true 0 (list_byte_of_string "same"))])])].



(** [fs_typical] after one pass. *)
Definition fs_typical_synced : node :=
  Dir true [("data", Dir true
    [("source", Dir true [("x.txt", text "hello");
                          ("docs", Dir true [("report.pdf", text "%PDF")])]);
     ("replica", Dir true [("x.txt", text "hello");
                           ("docs", Dir true [("report.pdf", text "%PDF")])])])].

(** [fs_empty_source] after one pass. *)
Definition fs_empty_source_synced : node :=
  Dir true [("data", Dir true [("source", Dir true []); ("replica", Dir true [])])].

(** [fs_file_over_dir] after the source file has been copied. *)
Definition fs_file_over_dir_copied : node :=
  Dir true [("data", Dir true
    [("source", Dir true [("a", text "hello")]);
     ("replica", Dir true [("a", Dir true [("a", text "hello")])])])].


(** [fs_typical] after [docs] has been created in the replica. *)
Definition fs_typical_docs : node :=
  Dir true [("data", Dir true
    [("source", Dir true [("x.txt", text "hello");
                          ("docs", Dir true [("report.pdf", text "%PDF")])]);
     ("replica", Dir true [("x.txt", text "world"); ("a.txt", text "a");
                           ("b", Dir true [("c.txt", text "c")]);
                           ("docs", Dir true [])])])].

(** [fs_typical] after [x.txt] has been copied. *)
Definition fs_typical_copied : node :=
  Dir true [("data", Dir true
    [("source", Dir true [("x.txt", text "hello");
                          ("docs", Dir true [("report.pdf", text "%PDF")])]);
     ("replica", Dir true [("x.txt", text "hello"); ("a.txt", text "a");
                           ("b", Dir true [("c.txt", text "c")])])])].

(** [fs_empty_source] after [b] has been removed from the replica. *)
Definition fs_empty_source_half : node :=
  Dir true [("data", Dir true
    [("source", Dir true []); ("replica", Dir true [("a.txt", text "a")])])].


(** An empty source and no replica. *)
Definition fs_no_replica : node :=
  Dir true [("data", Dir true [("source", Dir true [])])].

(** A file where the source root should be. *)
Definition fs_source_is_file : node :=
  Dir true [("data", Dir true
    [("source", text "x");
     ("replica", Dir true [("a.txt", text "a"); ("b", Dir true [("c.txt", text "c")])])])].

(** [fs_source_is_file] after one pass. *)
Definition fs_source_is_file_synced : node :=
  Dir true [("data", Dir true [("source", text "x"); ("replica", Dir true [])])].




(** The roots of [side_by_side]. *)
Definition src : path := ["data"; "source"].
Definition rep : path := ["data"; "replica"].

(** The log of the pass over [fs_typical]. *)
Definition log_typical : list record :=
  [(INFO, Starting_synchronization src rep);
   (INFO, CREATED_DIRECTORY ["data"; "replica"; "docs"]);
   (INFO, COPIED ["data"; "source"; "x.txt"] ["data"; "replica"; "x.txt"]);
   (INFO, COPIED ["data"; "source"; "docs"; "report.pdf"]
                 ["data"; "replica"; "docs"; "report.pdf"]);
   (INFO, REMOVED_DIRECTORY ["data"; "replica"; "b"]);
   (INFO, REMOVED_FILE ["data"; "replica"; "a.txt"]);
   (INFO, Synchronization_completed)].

Close Scope string_scope.

(** * The driver *)









(** * Properties *)

(** ** Paths *)

Lemma is_prefix_app (a b : path) : is_prefix a (a ++ b) = true.
Proof.
  induction a as [|x a IH]; simpl; [reflexivity|].
  destruct (string_dec x x); [exact IH | congruence].
Qed.

Lemma is_prefix_refl (a : path) : is_prefix a a = true.
Proof. rewrite <- (app_nil_r a) at 2. apply is_prefix_app. Qed.

Lemma is_prefix_split (a b : path) :
  is_prefix a b = true -> exists c, b = a ++ c.
Proof.
  revert b; induction a as [|x a IH]; intros b H; simpl in *.
  - exists b; reflexivity.
  - destruct b as [|y b]; [discriminate|].
    destruct (string_dec x y) as [->|]; [|discriminate].
    destruct (IH _ H) as [c ->]. exists c; reflexivity.
Qed.

Lemma is_prefix_iff (a b : path) :
  is_prefix a b = true <-> exists c, b = a ++ c.
Proof.
  split; [apply is_prefix_split|]. intros [c ->]; apply is_prefix_app.
Qed.

Lemma is_prefix_trans (a b c : path) :
  is_prefix a b = true -> is_prefix b c = true -> is_prefix a c = true.
Proof.
  rewrite !is_prefix_iff. intros [x ->] [y ->]. exists (x ++ y).
  symmetry; apply app_assoc.
Qed.

(** Two ancestors of one path are ancestors of one another. *)
Lemma is_prefix_comparable (a b c : path) :
  is_prefix a c = true -> is_prefix b c = true ->
  is_prefix a b = true \/ is_prefix b a = true.
Proof.
  revert b c; induction a as [|x a IH]; intros b c Ha Hb; simpl in *.
  - left; reflexivity.
  - destruct b as [|y b]; [right; reflexivity|].
    destruct c as [|z c]; [discriminate|]. simpl in Hb.
    destruct (string_dec x z) as [->|]; [|discriminate].
    destruct (string_dec y z) as [->|]; [|discriminate].
    simpl. destruct (string_dec z z); [|congruence].
    apply (IH b c); assumption.
Qed.

Lemma is_prefix_app_same (r a b : path) :
  is_prefix (r ++ a) (r ++ b) = is_prefix a b.
Proof.
  induction r as [|x r IH]; simpl; [reflexivity|].
  destruct (string_dec x x); [exact IH | congruence].
Qed.

Lemma is_prefix_nil_r (a : path) : is_prefix a [] = true -> a = [].
Proof. destruct a; [reflexivity | discriminate]. Qed.

Lemma is_prefix_antisym (a b : path) :
  is_prefix a b = true -> is_prefix b a = true -> a = b.
Proof.
  rewrite !is_prefix_iff. intros [x ->] [y H].
  rewrite <- app_assoc in H. rewrite <- (app_nil_r a) in H at 1.
  apply app_inv_head in H. symmetry in H. apply app_eq_nil in H.
  destruct H as [-> _]. symmetry; apply app_nil_r.
Qed.

Lemma relative_to_app (base q : path) : relative_to (base ++ q) base = Some q.
Proof.
  induction base as [|b base IH]; simpl.
  - destruct q; reflexivity.
  - destruct (string_dec b b); [exact IH | congruence].
Qed.

(** ** Directory entries *)

Lemma get_put_same c n es : get c (put c n es) = Some n.
Proof.
  induction es as [|[c' n'] es IH]; simpl.
  - destruct (string_dec c c); congruence.
  - destruct (string_dec c c') as [->|Hne]; simpl.
    + destruct (string_dec c' c'); congruence.
    + destruct (string_dec c c'); congruence.
Qed.

Lemma get_put_other c c' n es : c <> c' -> get c' (put c n es) = get c' es.
Proof.
  intros Hne. induction es as [|[c0 n0] es IH]; simpl.
  - destruct (string_dec c' c); congruence.
  - destruct (string_dec c c0) as [->|Hc]; simpl.
    + destruct (string_dec c' c0); congruence.
    + destruct (string_dec c' c0); congruence.
Qed.

Lemma get_del_same c es : get c (del c es) = None.
Proof.
  induction es as [|[c0 n0] es IH]; simpl; [reflexivity|].
  destruct (string_dec c c0) as [->|Hc]; simpl; [exact IH|].
  destruct (string_dec c c0); congruence.
Qed.

Lemma get_del_other c c' es : c <> c' -> get c' (del c es) = get c' es.
Proof.
  intros Hne. induction es as [|[c0 n0] es IH]; simpl; [reflexivity|].
  destruct (string_dec c c0) as [->|Hc]; simpl.
  - destruct (string_dec c' c0); congruence.
  - destruct (string_dec c' c0); congruence.
Qed.

Lemma put_get_id c n es : get c es = Some n -> put c n es = es.
Proof.
  induction es as [|[c0 n0] es IH]; simpl; [discriminate|].
  destruct (string_dec c c0) as [->|Hc]; intros H.
  - congruence.
  - rewrite (IH H); reflexivity.
Qed.

Lemma get_In c n es : get c es = Some n -> In (c, n) es.
Proof.
  induction es as [|[c0 n0] es IH]; simpl; [discriminate|].
  destruct (string_dec c c0) as [->|Hc]; intros H.
  - left; congruence.
  - right; auto.
Qed.

(** ** Looking paths up *)

Lemma lookup_app fs p q :
  lookup fs (p ++ q) =
  match lookup fs p with Some n => lookup n q | None => None end.
Proof.
  revert fs; induction p as [|c p IH]; intros fs; simpl; [reflexivity|].
  destruct fs as [r m d|l es]; [reflexivity|].
  destruct (get c es); [apply IH | reflexivity].
Qed.

Lemma lookup_below_none fs p q : lookup fs p = None -> lookup fs (p ++ q) = None.
Proof. intros H; rewrite lookup_app, H; reflexivity. Qed.

Lemma lookup_below_file fs p q r m d :
  lookup fs p = Some (File r m d) -> q <> [] -> lookup fs (p ++ q) = None.
Proof.
  intros H Hq; rewrite lookup_app, H. destruct q; [congruence | reflexivity].
Qed.

(** Whatever lies on the way to an existing path is a directory. *)
Lemma lookup_above_dir fs p q n :
  lookup fs (p ++ q) = Some n -> q <> [] ->
  exists l es, lookup fs p = Some (Dir l es).
Proof.
  rewrite lookup_app. destruct (lookup fs p) as [[r m d|l es]|]; intros H Hq.
  - destruct q; [congruence | discriminate].
  - eauto.
  - discriminate.
Qed.

Lemma stat_app fs p q :
  stat fs (p ++ q) =
  match lookup fs p with Some n => stat n q | None => None end.
Proof. unfold stat; rewrite lookup_app; destruct (lookup fs p); reflexivity. Qed.

Lemma stat_below_none fs p q : stat fs p = None -> stat fs (p ++ q) = None.
Proof.
  unfold stat; intros H. destruct (lookup fs p) eqn:E; [discriminate|].
  rewrite (lookup_below_none _ _ q E); reflexivity.
Qed.

Lemma stat_below_file fs p q r m d :
  stat fs p = Some (EFile r m d) -> q <> [] -> stat fs (p ++ q) = None.
Proof.
  unfold stat; intros H Hq. destruct (lookup fs p) as [[r' m' d'|l es]|] eqn:E;
    try discriminate.
  rewrite (lookup_below_file _ _ _ _ _ _ E Hq); reflexivity.
Qed.

Lemma stat_above_dir fs p q e :
  stat fs (p ++ q) = Some e -> q <> [] -> exists l, stat fs p = Some (EDir l).
Proof.
  unfold stat; intros H Hq. destruct (lookup fs (p ++ q)) eqn:E; [|discriminate].
  destruct (lookup_above_dir _ _ _ _ E Hq) as (l & es & ->). exists l; reflexivity.
Qed.

Lemma exists_stat fs p : exists_ fs p = true <-> stat fs p <> None.
Proof.
  unfold exists_, stat; destruct (lookup fs p); split; congruence.
Qed.

Lemma is_dir_stat fs p : is_dir fs p = true <-> exists l, stat fs p = Some (EDir l).
Proof.
  unfold is_dir, stat; destruct (lookup fs p) as [[r m d|l es]|]; simpl; split;
    try discriminate; try (intros [l' H]; discriminate); eauto.
Qed.


(** ** Storing at a path *)

Lemma store_lookup_below fs p o fs' r :
  store fs p o = Some fs' ->
  lookup fs' (p ++ r) = match o with Some n => lookup n r | None => None end.
Proof.
  revert fs fs'; induction p as [|c p IH]; intros fs fs' H; simpl in H.
  - subst o; reflexivity.
  - destruct fs as [r0 m0 d0|l es]; [discriminate|].
    destruct p as [|c2 p].
    + injection H as <-. simpl. destruct o as [n|].
      * rewrite get_put_same; reflexivity.
      * rewrite get_del_same; reflexivity.
    + destruct (get c es) as [m|] eqn:G; [|discriminate].
      destruct (store m (c2 :: p) o) as [m'|] eqn:S; [|discriminate].
      injection H as <-. change ((c :: c2 :: p) ++ r) with (c :: ((c2 :: p) ++ r)).
      cbn [lookup]. rewrite get_put_same. apply (IH _ _ S).
Qed.

Lemma store_lookup_at fs p o fs' :
  store fs p o = Some fs' -> lookup fs' p = o.
Proof.
  intros H. pose proof (store_lookup_below _ _ _ _ [] H) as E.
  rewrite app_nil_r in E. rewrite E. destruct o; reflexivity.
Qed.

Lemma store_lookup_unrelated fs p o fs' q :
  store fs p o = Some fs' ->
  is_prefix p q = false -> is_prefix q p = false ->
  lookup fs' q = lookup fs q.
Proof.
  revert fs fs' q; induction p as [|c p IH]; intros fs fs' q H Hpq Hqp.
  - discriminate.
  - destruct q as [|c' q]; [discriminate|].
    simpl in H. destruct fs as [r0 m0 d0|l es]; [discriminate|].
    simpl in Hpq, Hqp.
    destruct (string_dec c c') as [<-|Hne].
    + destruct (string_dec c c); [|congruence].
      destruct p as [|c2 p]; [discriminate|].
      destruct (get c es) as [m|] eqn:G; [|discriminate].
      destruct (store m (c2 :: p) o) as [m'|] eqn:S; [|discriminate].
      injection H as <-. cbn [lookup]. rewrite get_put_same, G.
      apply (IH _ _ _ S); assumption.
    + assert (E : forall es', get c' es' = get c' es -> lookup (Dir l es') (c' :: q) = lookup (Dir l es) (c' :: q))
        by (intros es' E; cbn [lookup]; rewrite E; reflexivity).
      destruct p as [|c2 p].
      * injection H as <-. apply E. destruct o.
        -- apply get_put_other; assumption.
        -- apply get_del_other; assumption.
      * destruct (get c es) as [m|] eqn:G; [|discriminate].
        destruct (store m (c2 :: p) o) as [m'|] eqn:S; [|discriminate].
        injection H as <-. apply E. apply get_put_other; assumption.
Qed.

Lemma store_stat_above fs p o fs' q :
  store fs p o = Some fs' -> is_prefix q p = true -> q <> p ->
  stat fs' q = stat fs q.
Proof.
  revert fs fs' q; induction p as [|c p IH]; intros fs fs' q H Hqp Hne.
  - apply is_prefix_nil_r in Hqp; congruence.
  - simpl in H. destruct fs as [r0 m0 d0|l es]; [discriminate|].
    destruct q as [|c' q].
    + destruct p as [|c2 p].
      * injection H as <-; reflexivity.
      * destruct (get c es) as [m|]; [|discriminate].
        destruct (store m (c2 :: p) o); [|discriminate].
        injection H as <-; reflexivity.
    + simpl in Hqp. destruct (string_dec c' c) as [->|]; [|discriminate].
      destruct p as [|c2 p].
      * apply is_prefix_nil_r in Hqp; subst q; congruence.
      * destruct (get c es) as [m|] eqn:G; [|discriminate].
        destruct (store m (c2 :: p) o) as [m'|] eqn:S; [|discriminate].
        injection H as <-. unfold stat; cbn [lookup]. rewrite get_put_same, G.
        apply (IH _ _ _ S Hqp). congruence.
Qed.

(** Storing at [p] is seen only at [p] and below. *)
Lemma store_stat_frame fs p o fs' q :
  store fs p o = Some fs' -> is_prefix p q = false -> stat fs' q = stat fs q.
Proof.
  intros H Hpq. destruct (is_prefix q p) eqn:Hqp.
  - apply (store_stat_above _ _ _ _ _ H Hqp). intros ->.
    rewrite is_prefix_refl in Hpq; discriminate.
  - unfold stat; rewrite (store_lookup_unrelated _ _ _ _ _ H Hpq Hqp); reflexivity.
Qed.

(** Replacing what is not a directory by a file leaves every path that is
    not on the way to it as it was, below it included. *)
Lemma store_file_lookup_frame fs p r m d fs' q :
  store fs p (Some (File r m d)) = Some fs' ->
  is_dir fs p = false ->
  is_prefix q p = false -> lookup fs' q = lookup fs q.
Proof.
  intros H Hd Hqp. destruct (is_prefix p q) eqn:Hpq.
  - apply is_prefix_split in Hpq. destruct Hpq as [x ->].
    assert (Hx : x <> []).
    { intros ->. rewrite app_nil_r, is_prefix_refl in Hqp; discriminate. }
    rewrite (store_lookup_below _ _ _ _ x H). rewrite lookup_app.
    unfold is_dir in Hd. destruct (lookup fs p) as [[r0 m0 d0|l es]|];
      try discriminate; destruct x; try congruence; reflexivity.
  - apply (store_lookup_unrelated _ _ _ _ _ H Hpq Hqp).
Qed.

(** ** Creating directories *)

Lemma mkdir_parents_id fs p : is_dir fs p = true -> mkdir_parents fs p = Some fs.
Proof.
  unfold is_dir. revert fs; induction p as [|c p IH]; intros fs H; simpl in *.
  - destruct fs; [discriminate | reflexivity].
  - destruct fs as [r m d|l es]; [discriminate|].
    destruct (get c es) as [n|] eqn:G; [|discriminate].
    rewrite (IH _ H), (put_get_id _ _ _ G); reflexivity.
Qed.

Lemma mkdir_parents_lookup_frame fs p fs' q :
  mkdir_parents fs p = Some fs' -> is_prefix q p = false ->
  lookup fs' q = lookup fs q.
Proof.
  revert fs fs' q; induction p as [|c p IH]; intros fs fs' q H Hq.
  - destruct fs; simpl in H; [discriminate|]. injection H as <-; reflexivity.
  - destruct fs as [r m d|l es]; simpl in H; [discriminate|].
    destruct (mkdir_parents _ p) as [n'|] eqn:M; [|discriminate].
    injection H as <-.
    destruct q as [|c' q]; [discriminate|]. simpl in Hq. cbn [lookup].
    destruct (string_dec c' c) as [->|Hne].
    + rewrite get_put_same, (IH _ _ _ M Hq).
      destruct (get c es); [reflexivity|].
      destruct q as [|x q]; [discriminate | reflexivity].
    + rewrite get_put_other by congruence; reflexivity.
Qed.

Lemma mkdir_parents_stat_on_path fs p fs' q :
  mkdir_parents fs p = Some fs' -> is_prefix q p = true ->
  exists l, stat fs' q = Some (EDir l) /\
            (stat fs q = Some (EDir l) \/ (stat fs q = None /\ l = true)).
Proof.
  revert fs fs' q; induction p as [|c p IH]; intros fs fs' q H Hq.
  - apply is_prefix_nil_r in Hq; subst q.
    destruct fs as [r m d|l es]; simpl in H; [discriminate|].
    injection H as <-. exists l; split; [reflexivity | left; reflexivity].
  - destruct fs as [r m d|l es]; simpl in H; [discriminate|].
    destruct (mkdir_parents _ p) as [n'|] eqn:M; [|discriminate].
    injection H as <-.
    destruct q as [|c' q].
    + exists l; split; [reflexivity | left; reflexivity].
    + simpl in Hq. destruct (string_dec c' c) as [->|]; [|discriminate].
      destruct (IH _ _ _ M Hq) as (l' & H1 & H2). exists l'.
      unfold stat in *; cbn [lookup]. rewrite get_put_same. split; [exact H1|].
      destruct (get c es) as [n|]; [exact H2|].
      right; split; [reflexivity|].
      destruct H2 as [H2|[_ H2]]; [|exact H2].
      destruct q; simpl in H2; [congruence | discriminate].
Qed.

(** Creating directories never changes what [stat] tells about a path that
    existed, and what it creates are directories that can be listed. *)
Lemma mkdir_parents_stat fs p fs' q :
  mkdir_parents fs p = Some fs' ->
  stat fs' q = stat fs q \/
  (is_prefix q p = true /\ stat fs q = None /\ stat fs' q = Some (EDir true)).
Proof.
  intros H. destruct (is_prefix q p) eqn:Hq.
  - destruct (mkdir_parents_stat_on_path _ _ _ _ H Hq) as (l & H1 & [H2|[H2 ->]]).
    + left; congruence.
    + right; auto.
  - left. unfold stat; rewrite (mkdir_parents_lookup_frame _ _ _ _ H Hq); reflexivity.
Qed.

Lemma mkdir_parents_is_dir fs p fs' :
  mkdir_parents fs p = Some fs' -> is_dir fs' p = true.
Proof.
  intros H. apply is_dir_stat.
  destruct (mkdir_parents_stat_on_path _ _ _ _ H (is_prefix_refl p)) as (l & H1 & _).
  eauto.
Qed.

(** ** Well-formed trees *)

Lemma node_induction (P : node -> Prop) :
  (forall r m d, P (File r m d)) ->
  (forall l es, (forall c n, In (c, n) es -> P n) -> P (Dir l es)) ->
  forall n, P n.
Proof.
  intros Hf Hd. fix IH 1. intros [r m d|l es]; [apply Hf|]. apply Hd.
  induction es as [|[c0 n0] es IHes]; intros c n Hin.
  - destruct Hin.
  - destruct Hin as [E|Hin].
    + injection E as _ <-. apply IH.
    + apply (IHes c n Hin).
Qed.

Lemma existsb_eqb_In x l : existsb (String.eqb x) l = true <-> In x l.
Proof.
  rewrite existsb_exists. split.
  - intros (y & Hy & E). apply String.eqb_eq in E; subst; assumption.
  - intros H; exists x; split; [assumption | apply String.eqb_refl].
Qed.

Lemma nodupb_NoDup l : nodupb l = true <-> NoDup l.
Proof.
  induction l as [|x l IH]; simpl.
  - split; [constructor | reflexivity].
  - rewrite andb_true_iff, negb_true_iff, IH. split.
    + intros [H1 H2]; constructor; [|assumption].
      intros Hin; apply existsb_eqb_In in Hin; congruence.
    + intros H; inversion H; subst; split; [|assumption].
      destruct (existsb (String.eqb x) l) eqn:E; [|reflexivity].
      apply existsb_eqb_In in E; contradiction.
Qed.

Lemma wf_Dir l es :
  wf (Dir l es) = true <->
  NoDup (map fst es) /\ forall c n, In (c, n) es -> wf n = true.
Proof.
  cbn [wf]. rewrite andb_true_iff, nodupb_NoDup.
  apply and_iff_compat_l.
  induction es as [|[c0 n0] es IH].
  - split; [intros _ c n [] | reflexivity].
  - rewrite andb_true_iff, IH. split.
    + intros [H1 H2] c n [E|Hin]; [congruence | eauto].
    + intros H; split; [apply (H c0); left; reflexivity|].
      intros c n Hin; apply (H c); right; assumption.
Qed.

Lemma In_get c n es : NoDup (map fst es) -> In (c, n) es -> get c es = Some n.
Proof.
  induction es as [|[c0 n0] es IH]; simpl; intros Hnd Hin; [destruct Hin|].
  inversion Hnd as [|? ? Hnotin Hnd']; subst.
  destruct Hin as [E|Hin].
  - injection E as -> ->. destruct (string_dec c c); congruence.
  - destruct (string_dec c c0) as [->|]; [|auto].
    exfalso; apply Hnotin. apply (in_map fst) in Hin; exact Hin.
Qed.

Lemma wf_get l es c n : wf (Dir l es) = true -> get c es = Some n -> wf n = true.
Proof.
  intros H G. apply wf_Dir in H. destruct H as [_ H].
  apply (H c). apply get_In; assumption.
Qed.

Lemma wf_lookup fs p n : wf fs = true -> lookup fs p = Some n -> wf n = true.
Proof.
  revert fs; induction p as [|c p IH]; intros fs Hwf H; simpl in H.
  - congruence.
  - destruct fs as [r m d|l es]; [discriminate|].
    destruct (get c es) as [n0|] eqn:G; [|discriminate].
    apply (IH n0); [apply (wf_get _ _ _ _ Hwf G) | assumption].
Qed.

Lemma In_fst_put x c n es : In x (map fst (put c n es)) -> x = c \/ In x (map fst es).
Proof.
  induction es as [|[c0 n0] es IH]; simpl.
  - intros [H|[]]; left; congruence.
  - destruct (string_dec c c0) as [->|Hne]; simpl.
    + intros [H|H]; auto.
    + intros [H|H]; [auto|]. destruct (IH H); auto.
Qed.

Lemma In_put c' n' c n es : In (c', n') (put c n es) -> (c', n') = (c, n) \/ In (c', n') es.
Proof.
  induction es as [|[c0 n0] es IH]; simpl.
  - intros [H|[]]; left; congruence.
  - destruct (string_dec c c0) as [->|Hne]; simpl.
    + intros [H|H]; [left; congruence | auto].
    + intros [H|H]; [auto|]. destruct (IH H); auto.
Qed.

Lemma NoDup_put c n es : NoDup (map fst es) -> NoDup (map fst (put c n es)).
Proof.
  induction es as [|[c0 n0] es IH]; simpl; intros H.
  - constructor; [intros [] | constructor].
  - inversion H as [|? ? Hnotin Hnd]; subst.
    destruct (string_dec c c0) as [->|Hne]; simpl.
    + constructor; assumption.
    + constructor; [|auto]. intros Hin.
      destruct (In_fst_put _ _ _ _ Hin); [congruence | contradiction].
Qed.

Lemma NoDup_del c es : NoDup (map fst es) -> NoDup (map fst (del c es)).
Proof.
  induction es as [|[c0 n0] es IH]; simpl; intros H; [constructor|].
  inversion H as [|? ? Hnotin Hnd]; subst.
  destruct (string_dec c c0); simpl; [auto|].
  constructor; [|auto]. intros Hin. apply Hnotin.
  apply in_map_iff in Hin. destruct Hin as ([c1 n1] & E & Hin).
  apply filter_In in Hin. destruct Hin as [Hin _].
  apply in_map_iff. exists (c1, n1); auto.
Qed.

Lemma wf_put l es c n :
  wf (Dir l es) = true -> wf n = true -> wf (Dir l (put c n es)) = true.
Proof.
  rewrite !wf_Dir. intros [H1 H2] Hn. split; [apply NoDup_put; assumption|].
  intros c' n' Hin. destruct (In_put _ _ _ _ _ Hin) as [E|Hin'].
  - congruence.
  - eauto.
Qed.

Lemma wf_del l es c : wf (Dir l es) = true -> wf (Dir l (del c es)) = true.
Proof.
  rewrite !wf_Dir. intros [H1 H2]. split; [apply NoDup_del; assumption|].
  intros c' n' Hin. apply filter_In in Hin. destruct Hin as [Hin _]. eauto.
Qed.

Lemma wf_store fs p o fs' :
  wf fs = true -> (forall n, o = Some n -> wf n = true) ->
  store fs p o = Some fs' -> wf fs' = true.
Proof.
  revert fs fs'; induction p as [|c p IH]; intros fs fs' Hwf Ho H; simpl in H.
  - auto.
  - destruct fs as [r m d|l es]; [discriminate|].
    destruct p as [|c2 p].
    + injection H as <-. destruct o as [n|].
      * apply wf_put; auto.
      * apply wf_del; assumption.
    + destruct (get c es) as [m|] eqn:G; [|discriminate].
      destruct (store m (c2 :: p) o) as [m'|] eqn:S; [|discriminate].
      injection H as <-. apply wf_put; [assumption|].
      apply (IH m m'); auto. apply (wf_get _ _ _ _ Hwf G).
Qed.

Lemma wf_mkdir_parents fs p fs' :
  wf fs = true -> mkdir_parents fs p = Some fs' -> wf fs' = true.
Proof.
  revert fs fs'; induction p as [|c p IH]; intros fs fs' Hwf H.
  - destruct fs; simpl in H; [discriminate|]. injection H as <-; assumption.
  - destruct fs as [r m d|l es]; simpl in H; [discriminate|].
    destruct (mkdir_parents _ p) as [n'|] eqn:M; [|discriminate].
    injection H as <-. apply wf_put; [assumption|].
    eapply IH; [|exact M].
    destruct (get c es) eqn:G; [apply (wf_get _ _ _ _ Hwf G) | reflexivity].
Qed.

(** ** Removing trees *)


(** ** Enumerating a tree *)

Lemma listed_iff n q :
  listed n q = true <->
  forall q1 q2, q = q1 ++ q2 -> stat n q1 = Some (EDir true).
Proof.
  revert n; induction q as [|c q IH]; intros n.
  - split.
    + intros H q1 q2 E. symmetry in E. apply app_eq_nil in E. destruct E as [-> _].
      destruct n as [r m d|[|] es]; try discriminate. reflexivity.
    + intros H. specialize (H [] [] eq_refl).
      destruct n as [r m d|[|] es]; try discriminate. reflexivity.
  - split.
    + intros H q1 q2 E. destruct n as [r m d|[|] es]; try discriminate.
      destruct q1 as [|c1 q1]; [reflexivity|].
      injection E as <- E. simpl in H. unfold stat; cbn [lookup].
      destruct (get c es) as [m|]; [|discriminate].
      apply (proj1 (IH m) H q1 q2 E).
    + intros H. pose proof (H [] (c :: q) eq_refl) as H0.
      destruct n as [r m d|[|] es]; try discriminate. simpl.
      pose proof (H [c] q eq_refl) as H1. unfold stat in H1; cbn [lookup] in H1.
      destruct (get c es) as [m|] eqn:G; [|discriminate].
      apply IH. intros q1 q2 E. specialize (H (c :: q1) q2).
      unfold stat in H; cbn [lookup] in H. rewrite G in H. apply H.
      rewrite E; reflexivity.
Qed.

Lemma walk_node_sub top es :
  (fix sub (l : entries_t) : list (path * list string * list string) :=
     match l with
     | [] => []
     | (c, m) :: l' => walk_node (top ++ [c]) m ++ sub l'
     end) es =
  flat_map (fun e => walk_node (top ++ [fst e]) (snd e)) es.
Proof.
  induction es as [|[c m] es IH]; [reflexivity|]. simpl. rewrite IH; reflexivity.
Qed.

(** The triples [os.walk] yields are the directories that are [listed]. *)
Lemma walk_node_spec n : forall top root ds fl,
  wf n = true ->
  (In (root, ds, fl) (walk_node top n) <->
   exists q es, root = top ++ q /\ listed n q = true /\
                lookup n q = Some (Dir true es) /\
                ds = dirs_of es /\ fl = files_of es).
Proof.
  induction n as [r m d|l es IH] using node_induction; intros top root ds fl Hwf.
  - simpl. split; [intros [] | intros (q & es & _ & H & _)].
    destruct q; discriminate.
  - destruct l.
    2:{ simpl. split; [intros [] | intros (q & es' & _ & H & _)].
        destruct q; discriminate. }
    cbn [walk_node]. rewrite walk_node_sub. cbn [In]. rewrite in_flat_map. split.
    + intros [E|([c m] & Hin & Hw)].
      * injection E as <- <- <-. exists [], es. rewrite app_nil_r. auto.
      * simpl in Hw. apply wf_Dir in Hwf. destruct Hwf as [Hnd Hall].
        apply (IH c m Hin) in Hw; [|eauto].
        destruct Hw as (q & es' & -> & Hl & Hlk & -> & ->).
        exists (c :: q), es'. rewrite <- app_assoc. simpl.
        rewrite (In_get _ _ _ Hnd Hin). auto.
    + intros (q & es' & -> & Hl & Hlk & -> & ->).
      destruct q as [|c q].
      * left. simpl in Hlk. injection Hlk as <-. rewrite app_nil_r; reflexivity.
      * right. simpl in Hl, Hlk. destruct (get c es) as [m|] eqn:G; [|discriminate].
        exists (c, m). split; [apply get_In; assumption|]. simpl.
        apply (IH c m (get_In _ _ _ G)); [apply (wf_get _ _ _ _ Hwf G)|].
        exists q, es'. rewrite <- app_assoc. auto.
Qed.

Lemma In_names es name :
  In name (dirs_of es ++ files_of es) <-> exists m, In (name, m) es.
Proof.
  unfold dirs_of, files_of. rewrite in_app_iff, !in_map_iff. split.
  - intros [([c m] & E & H)|([c m] & E & H)]; apply filter_In in H;
      destruct H as [H _]; simpl in E; subst; eauto.
  - intros (m & H). destruct m as [r t d|l k].
    + right. exists (name, File r t d). split; [reflexivity|].
      apply filter_In; auto.
    + left. exists (name, Dir l k). split; [reflexivity|].
      apply filter_In; auto.
Qed.

Lemma In_names_get es name :
  NoDup (map fst es) ->
  (In name (dirs_of es ++ files_of es) <-> get name es <> None).
Proof.
  intros Hnd. rewrite In_names. split.
  - intros (m & H). rewrite (In_get _ _ _ Hnd H); discriminate.
  - intros H. destruct (get name es) as [m|] eqn:G; [|congruence].
    exists m; apply get_In; assumption.
Qed.

Section Enumerator.

(** Below its root [relative_to] never fails, so the loops over the names of
    one directory run to their end. *)
Lemma for_add_relative base q names : forall st,
  exists st', for_ names (add_relative base (base ++ q)) st = Done st' /\
    forall rel, In rel st' <->
      In rel st \/ exists name, In name names /\ rel = q ++ [name].
Proof.
  induction names as [|name names IH]; intros st.
  - exists st; split; [reflexivity|]. intros rel; split; [auto|].
    intros [H|(name & [] & _)]; assumption.
  - cbn [for_]. unfold add_relative at 1.
    rewrite <- app_assoc, relative_to_app.
    destruct (IH (set_add path_eq_dec (q ++ [name]) st)) as (st' & E & Hst').
    exists st'; split; [exact E|]. intros rel. rewrite Hst', set_add_iff. split.
    + intros [[->|H]|(n & Hn & ->)]; eauto.
      * right; exists name; split; [left; reflexivity | reflexivity].
      * right; exists n; split; [right; assumption | reflexivity].
    + intros [H|(n & [<-|Hn] & ->)]; eauto.
Qed.

Lemma for_add_listing base W : forall st,
  (forall root ds fl, In (root, ds, fl) W -> exists q, root = base ++ q) ->
  exists st', for_ W (add_listing base) st = Done st' /\
    forall rel, In rel st' <->
      In rel st \/
      exists q ds fl name, In (base ++ q, ds, fl) W /\ In name (ds ++ fl) /\
                           rel = q ++ [name].
Proof.
  induction W as [|[[root ds] fl] W IH]; intros st HW.
  - exists st; split; [reflexivity|]. intros rel; split; [auto|].
    intros [H|(q & ds & fl & name & [] & _)]; assumption.
  - destruct (HW root ds fl (or_introl eq_refl)) as [q0 ->].
    cbn [for_]. unfold add_listing at 1.
    destruct (for_add_relative base q0 ds st) as (st1 & E1 & H1). rewrite E1.
    destruct (for_add_relative base q0 fl st1) as (st2 & E2 & H2). rewrite E2.
    destruct (IH st2) as (st' & E & Hst').
    { intros r d f Hin; apply (HW r d f); right; assumption. }
    exists st'; split; [exact E|]. intros rel. rewrite Hst', H2, H1. split.
    + intros [[[H|(name & Hn & ->)]|(name & Hn & ->)]|(q & d & f & name & Hin & Hn & ->)].
      * auto.
      * right; exists q0, ds, fl, name. rewrite in_app_iff; cbn [In]; auto.
      * right; exists q0, ds, fl, name. rewrite in_app_iff; cbn [In]; auto.
      * right; exists q, d, f, name. cbn [In]; auto.
    + intros [H|(q & d & f & name & [E0|Hin] & Hn & ->)].
      * auto.
      * injection E0 as E0 <- <-. apply app_inv_head in E0; subst q.
        apply in_app_iff in Hn. destruct Hn as [Hn|Hn].
        -- left; left; right; eauto.
        -- left; right; eauto.
      * right; exists q, d, f, name; auto.
Qed.

(** The enumerator never reaches its exception handler, and it returns the
    entries of the directories that are [listed]. *)
Lemma get_directory_structure_spec fs top n :
  lookup fs top = Some n -> wf n = true ->
  snd (get_directory_structure fs top) = [] /\
  forall rel, In rel (fst (get_directory_structure fs top)) <->
    exists q name, rel = q ++ [name] /\ listed n q = true /\
                   lookup n (q ++ [name]) <> None.
Proof.
  intros Hn Hwf. unfold get_directory_structure, exists_, os_walk. rewrite Hn.
  cbn [negb].
  destruct (for_add_listing top (walk_node top n) []) as (st & E & Hst).
  { intros root ds fl Hin. apply (walk_node_spec n top root ds fl Hwf) in Hin.
    destruct Hin as (q & _ & -> & _). eauto. }
  match goal with
  | |- context [for_ ?a ?b ?c] =>
      replace (for_ a b c) with (Done st) by (symmetry; exact E)
  end.
  split; [reflexivity|]. cbn [fst]. intros rel. rewrite Hst. split.
  - intros [[]|(q & ds & fl & name & Hin & Hname & ->)].
    apply (walk_node_spec n top _ ds fl Hwf) in Hin.
    destruct Hin as (q' & es & E0 & Hl & Hlk & -> & ->).
    apply app_inv_head in E0; subst q'.
    exists q, name. split; [reflexivity|]. split; [assumption|].
    rewrite lookup_app, Hlk. cbn [lookup].
    pose proof (wf_lookup _ _ _ Hwf Hlk) as Hwf'. apply wf_Dir in Hwf'.
    apply (In_names_get es name (proj1 Hwf')) in Hname.
    destruct (get name es); congruence.
  - intros (q & name & -> & Hl & Hlk). right.
    assert (Hd : exists es, lookup n q = Some (Dir true es)).
    { pose proof (proj1 (listed_iff n q) Hl q [] (eq_sym (app_nil_r q))) as Hs.
      unfold stat in Hs. destruct (lookup n q) as [[r m d|[|] es]|];
        try discriminate. eauto. }
    destruct Hd as [es Hes].
    exists q, (dirs_of es), (files_of es), name. split; [|split; [|reflexivity]].
    + apply (walk_node_spec n top _ _ _ Hwf). exists q, es; auto.
    + pose proof (wf_lookup _ _ _ Hwf Hes) as Hwf'. apply wf_Dir in Hwf'.
      apply (In_names_get es name (proj1 Hwf')).
      rewrite lookup_app, Hes in Hlk. cbn [lookup] in Hlk.
      destruct (get name es); congruence.
Qed.

End Enumerator.

Lemma app_snoc_split (q q1 q2 : path) (x : string) :
  q ++ [x] = q1 ++ q2 -> q2 <> [] -> exists q2', q2 = q2' ++ [x] /\ q = q1 ++ q2'.
Proof.
  intros E Hq2. destruct (exists_last Hq2) as (q2' & y & ->).
  rewrite app_assoc in E. apply app_inj_tail in E. destruct E as [-> ->].
  exists q2'; split; reflexivity.
Qed.

Lemma walk_node_root n : forall top root ds fl,
  In (root, ds, fl) (walk_node top n) -> exists q, root = top ++ q.
Proof.
  induction n as [r m d|l es IH] using node_induction; intros top root ds fl Hin.
  - destruct Hin.
  - destruct l; [|destruct Hin]. cbn [walk_node] in Hin.
    rewrite walk_node_sub in Hin. destruct Hin as [E|Hin].
    + injection E as <- _ _. exists []; symmetry; apply app_nil_r.
    + apply in_flat_map in Hin. destruct Hin as ([c m] & Hc & Hin).
      destruct (IH c m Hc _ _ _ _ Hin) as [q ->].
      exists (c :: q). rewrite <- app_assoc; reflexivity.
Qed.

Section Snapshots.

(** The enumerator's exception handler is never reached. *)
Lemma get_directory_structure_log fs top :
  snd (get_directory_structure fs top) = [].
Proof.
  unfold get_directory_structure, os_walk.
  destruct (exists_ fs top); [|reflexivity]. cbn [negb].
  destruct (lookup fs top) as [n|]; [|reflexivity].
  destruct (for_add_listing top (walk_node top n) []) as (st & E & _).
  { intros root ds fl Hin. apply (walk_node_root n top root ds fl Hin). }
  match goal with
  | |- context [for_ ?a ?b ?c] =>
      replace (for_ a b c) with (Done st) by (symmetry; exact E)
  end.
  reflexivity.
Qed.

(** The root itself is never among the relative paths of a snapshot. *)
Lemma snapshot_not_root fs top rel : In rel (snapshot fs top) -> rel <> [].
Proof.
  unfold snapshot, get_directory_structure, os_walk.
  destruct (exists_ fs top); [|intros []]. cbn [negb].
  destruct (lookup fs top) as [n|]; [|intros []].
  destruct (for_add_listing top (walk_node top n) []) as (st & E & Hst).
  { intros root ds fl Hin. apply (walk_node_root n top root ds fl Hin). }
  match goal with
  | |- context [for_ ?a ?b ?c] =>
      replace (for_ a b c) with (Done st) by (symmetry; exact E)
  end.
  cbn [fst]. rewrite Hst. intros [[]|(q & ds & fl & name & _ & _ & ->)].
  destruct q; discriminate.
Qed.

(** A snapshot is a function of the tree below its root. *)
Lemma get_directory_structure_ext fs fs' top :
  lookup fs' top = lookup fs top ->
  get_directory_structure fs' top = get_directory_structure fs top.
Proof.
  intros E. unfold get_directory_structure, exists_, os_walk. rewrite E; reflexivity.
Qed.

(** A relative path is in the snapshot of a root when it exists below the
    root and every directory from the root down to its parent can be
    listed. *)
Lemma snapshot_iff fs top rel :
  wf fs = true ->
  (In rel (snapshot fs top) <->
   rel <> [] /\ stat fs (top ++ rel) <> None /\
   forall q1 q2, rel = q1 ++ q2 -> q2 <> [] ->
                 stat fs (top ++ q1) = Some (EDir true)).
Proof.
  intros Hwf. unfold snapshot. destruct (lookup fs top) as [n|] eqn:Hn.
  - destruct (get_directory_structure_spec fs top n Hn (wf_lookup _ _ _ Hwf Hn))
      as [_ Hspec].
    rewrite Hspec. split.
    + intros (q & name & -> & Hl & Hlk). split; [destruct q; discriminate|]. split.
      * rewrite stat_app, Hn. unfold stat. destruct (lookup n (q ++ [name])); congruence.
      * intros q1 q2 E Hq2. destruct (app_snoc_split _ _ _ _ E Hq2) as (q2' & -> & ->).
        rewrite stat_app, Hn. apply (proj1 (listed_iff n (q1 ++ q2')) Hl q1 q2' eq_refl).
    + intros (Hne & Hst & Hall). destruct (exists_last Hne) as (q & name & ->).
      exists q, name. split; [reflexivity|]. split.
      * apply listed_iff. intros q1 q2 ->.
        rewrite <- (Hall q1 (q2 ++ [name])).
        -- rewrite stat_app, Hn; reflexivity.
        -- symmetry; apply app_assoc.
        -- destruct q2; discriminate.
      * rewrite stat_app, Hn in Hst. unfold stat in Hst.
        destruct (lookup n (q ++ [name])); congruence.
  - unfold get_directory_structure, exists_. rewrite Hn. cbn. split; [intros []|].
    intros (Hne & _ & Hall). specialize (Hall [] rel eq_refl Hne).
    rewrite app_nil_r in Hall. unfold stat in Hall. rewrite Hn in Hall. discriminate.
Qed.

(** Every ancestor of a path of a snapshot, the root apart, is in it. *)
Lemma snapshot_prefix_closed fs top q1 q2 :
  wf fs = true -> In (q1 ++ q2) (snapshot fs top) -> q1 <> [] ->
  In q1 (snapshot fs top).
Proof.
  intros Hwf Hin Hq1. apply (snapshot_iff fs top _ Hwf) in Hin.
  destruct Hin as (_ & Hst & Hall). apply (snapshot_iff fs top _ Hwf).
  split; [assumption|]. split.
  - destruct q2 as [|x q2]; [rewrite app_nil_r in Hst; assumption|].
    rewrite (Hall q1 (x :: q2) eq_refl); discriminate.
  - intros a b -> Hb. apply (Hall a (b ++ q2)).
    + symmetry; apply app_assoc.
    + destruct b; [congruence | discriminate].
Qed.

End Snapshots.

(** ** The mutators *)

Lemma is_prefix_false_mono (q a b : path) :
  is_prefix a b = true -> is_prefix q b = false -> is_prefix q a = false.
Proof.
  intros Hab Hqb. destruct (is_prefix q a) eqn:Hqa; [|reflexivity].
  rewrite (is_prefix_trans _ _ _ Hqa Hab) in Hqb; discriminate.
Qed.

Lemma is_prefix_removelast (p : path) : is_prefix (removelast p) p = true.
Proof.
  destruct p as [|c p]; [reflexivity|].
  rewrite (app_removelast_last EmptyString (l := c :: p)) at 2 by discriminate.
  apply is_prefix_app.
Qed.

Lemma removelast_app_path (r p : path) : p <> [] -> removelast (r ++ p) = r ++ removelast p.
Proof. intros H; apply removelast_app; assumption. Qed.

Lemma no_errors_app a b : no_errors (a ++ b) = no_errors a && no_errors b.
Proof. apply forallb_app. Qed.

Lemma no_mutations_app a b : no_mutations (a ++ b) = no_mutations a && no_mutations b.
Proof. apply forallb_app. Qed.

Lemma copy2_inv fs src dst fs' :
  copy2 fs src dst = Some fs' ->
  exists m d dstf,
    dstf = (if is_dir fs dst then dst ++ [basename src] else dst) /\
    lookup fs src = Some (File true m d) /\ src <> dstf /\
    is_dir fs dstf = false /\
    store fs dstf (Some (File true m d)) = Some fs'.
Proof.
  unfold copy2. set (dstf := if is_dir fs dst then dst ++ [basename src] else dst).
  destruct (path_eq_dec src dstf) as [|Hne]; [discriminate|].
  destruct (lookup fs src) as [[[|] m d|l es]|]; try discriminate.
  intros H. exists m, d, dstf. split; [reflexivity|]. split; [reflexivity|].
  split; [assumption|]. unfold is_dir.
  destruct (lookup fs dstf) as [[r0 m0 d0|l es]|]; try discriminate; auto.
Qed.

Lemma copy2_lookup_frame fs src dst fs' q :
  copy2 fs src dst = Some fs' ->
  is_prefix q (dst ++ [basename src]) = false ->
  lookup fs' q = lookup fs q.
Proof.
  intros H Hq. destruct (copy2_inv _ _ _ _ H) as (m & d & dstf & E & _ & _ & Hd & S).
  apply (store_file_lookup_frame _ _ _ _ _ _ _ S Hd).
  subst dstf. destruct (is_dir fs dst); [assumption|].
  apply (is_prefix_false_mono q dst (dst ++ [basename src])); [apply is_prefix_app | assumption].
Qed.

Lemma copy2_is_dir fs src dst fs' q :
  copy2 fs src dst = Some fs' -> is_dir fs q = true -> is_dir fs' q = true.
Proof.
  intros H Hq. destruct (copy2_inv _ _ _ _ H) as (m & d & dstf & _ & _ & _ & Hd & S).
  destruct (is_prefix dstf q) eqn:Hp.
  - exfalso. apply is_prefix_split in Hp. destruct Hp as [x ->].
    unfold is_dir in Hq, Hd. rewrite lookup_app in Hq.
    destruct (lookup fs dstf) as [[r0 m0 d0|l es]|]; try discriminate.
    destruct x; discriminate.
  - apply is_dir_stat. apply is_dir_stat in Hq.
    rewrite (store_stat_frame _ _ _ _ _ S Hp). assumption.
Qed.

Lemma mkdir_parents_keeps_dir fs p fs' q :
  mkdir_parents fs p = Some fs' -> is_dir fs q = true -> is_dir fs' q = true.
Proof.
  intros H Hq. apply is_dir_stat. apply is_dir_stat in Hq.
  destruct (mkdir_parents_stat _ _ _ q H) as [E|(_ & E & _)].
  - rewrite E; assumption.
  - destruct Hq as [l Hq]; congruence.
Qed.

Section Mutators.

Lemma copy_file_cases fs src dst fs' l :
  copy_file fs src dst = (fs', l) ->
  (exists fs1, mkdir_parents fs (removelast dst) = Some fs1 /\
               copy2 fs1 src dst = Some fs' /\ l = [(INFO, COPIED src dst)]) \/
  (l = [(ERROR, Error_copying src dst)] /\
   (fs' = fs \/ mkdir_parents fs (removelast dst) = Some fs')).
Proof.
  unfold copy_file. destruct (mkdir_parents fs (removelast dst)) as [fs1|] eqn:M.
  - destruct (copy2 fs1 src dst) as [fs2|] eqn:C; intros H; injection H as <- <-.
    + left; eauto.
    + right; auto.
  - intros H; injection H as <- <-. right; auto.
Qed.

Lemma copy_file_lookup_frame fs src dst fs' l q :
  copy_file fs src dst = (fs', l) ->
  is_prefix q (dst ++ [basename src]) = false ->
  lookup fs' q = lookup fs q.
Proof.
  intros H Hq.
  assert (Hq' : is_prefix q (removelast dst) = false).
  { apply (is_prefix_false_mono q _ (dst ++ [basename src])); [|assumption].
    apply (is_prefix_trans _ dst); [apply is_prefix_removelast | apply is_prefix_app]. }
  destruct (copy_file_cases _ _ _ _ _ H) as [(fs1 & M & C & _)|(_ & [->|M])].
  - rewrite (copy2_lookup_frame _ _ _ _ _ C Hq).
    apply (mkdir_parents_lookup_frame _ _ _ _ M Hq').
  - reflexivity.
  - apply (mkdir_parents_lookup_frame _ _ _ _ M Hq').
Qed.

Lemma copy_file_is_dir fs src dst fs' l q :
  copy_file fs src dst = (fs', l) -> is_dir fs q = true -> is_dir fs' q = true.
Proof.
  intros H Hq.
  destruct (copy_file_cases _ _ _ _ _ H) as [(fs1 & M & C & _)|(_ & [->|M])].
  - apply (copy2_is_dir _ _ _ _ _ C). apply (mkdir_parents_keeps_dir _ _ _ _ M Hq).
  - assumption.
  - apply (mkdir_parents_keeps_dir _ _ _ _ M Hq).
Qed.

Lemma create_directory_cases fs p fs' l :
  create_directory fs p = (fs', l) ->
  (mkdir_parents fs p = Some fs' /\ l = [(INFO, CREATED_DIRECTORY p)]) \/
  (fs' = fs /\ l = [(ERROR, Error_creating_directory p)]).
Proof.
  unfold create_directory. destruct (mkdir_parents fs p) as [fs1|];
    intros H; injection H as <- <-; auto.
Qed.

Lemma create_directory_lookup_frame fs p fs' l q :
  create_directory fs p = (fs', l) -> is_prefix q p = false ->
  lookup fs' q = lookup fs q.
Proof.
  intros H Hq. destruct (create_directory_cases _ _ _ _ H) as [[M _]|[-> _]].
  - apply (mkdir_parents_lookup_frame _ _ _ _ M Hq).
  - reflexivity.
Qed.

Lemma create_directory_is_dir fs p fs' l q :
  create_directory fs p = (fs', l) -> is_dir fs q = true -> is_dir fs' q = true.
Proof.
  intros H Hq. destruct (create_directory_cases _ _ _ _ H) as [[M _]|[-> _]].
  - apply (mkdir_parents_keeps_dir _ _ _ _ M Hq).
  - assumption.
Qed.

(** A source that cannot be read is not copied, and the replica file
    stays. *)
Lemma copy_file_unreadable_source fs src dst :
  open_rb fs src = None -> is_file fs dst = true ->
  copy_file fs src dst = (fs, [(ERROR, Error_copying src dst)]).
Proof.
  intros Ho Hf. unfold copy_file.
  destruct (mkdir_parents fs (removelast dst)) as [fs1|] eqn:M; [|reflexivity].
  assert (E : fs1 = fs).
  { destruct (list_eq_dec string_dec dst []) as [->|Hne].
    - simpl in M. unfold is_file in Hf. simpl in Hf.
      destruct fs; [discriminate M | discriminate Hf].
    - unfold is_file in Hf.
      rewrite (app_removelast_last EmptyString Hne) in Hf.
      destruct (lookup fs (removelast dst ++ [last dst EmptyString])) as [n|] eqn:L;
        [|discriminate].
      destruct (lookup_above_dir _ _ _ _ L) as (l & es & Hd); [discriminate|].
      rewrite mkdir_parents_id in M by (unfold is_dir; rewrite Hd; reflexivity).
      congruence. }
  subst fs1. unfold copy2.
  assert (Hd : is_dir fs dst = false).
  { unfold is_file in Hf. unfold is_dir.
    destruct (lookup fs dst) as [[? ? ?|? ?]|]; try discriminate; reflexivity. }
  rewrite Hd. destruct (path_eq_dec src dst); [reflexivity|].
  unfold open_rb in Ho.
  destruct (lookup fs src) as [[[|] ? ?|? ?]|]; try discriminate; reflexivity.
Qed.

(** What [remove_path] did, by the record it wrote. *)
Lemma remove_path_cases fs p fs' l :
  remove_path fs p = (fs', l) ->
  (fs' = fs /\ (l = [] \/ l = [(ERROR, Error_removing p)])) \/
  (exists o, store fs p o = Some fs' /\
     ((o = None /\ (l = [(INFO, REMOVED_FILE p)] \/ l = [(INFO, REMOVED_DIRECTORY p)])) \/
      l = [(ERROR, Error_removing p)])).
Proof.
  unfold remove_path, unlink, rmtree, is_file, is_dir.
  destruct (lookup fs p) as [[r m d|k es]|] eqn:L.
  - destruct (store fs p None) as [fs1|] eqn:S; intros H; injection H as <- <-.
    + right; exists None; auto.
    + left; auto.
  - destruct (rmtree_node (Dir k es)) as [n'|].
    + destruct (store fs p (Some n')) as [fs1|] eqn:S; intros H; injection H as <- <-.
      * right; exists (Some n'); auto.
      * left; auto.
    + destruct (store fs p None) as [fs1|] eqn:S; intros H; injection H as <- <-.
      * right; exists None; auto.
      * left; auto.
  - intros H; injection H as <- <-. left; auto.
Qed.

Lemma remove_path_stat_frame fs p fs' l q :
  remove_path fs p = (fs', l) -> is_prefix p q = false -> stat fs' q = stat fs q.
Proof.
  intros H Hq. destruct (remove_path_cases _ _ _ _ H) as [[-> _]|(o & S & _)].
  - reflexivity.
  - apply (store_stat_frame _ _ _ _ _ S Hq).
Qed.

Lemma remove_path_lookup_frame fs p fs' l q :
  remove_path fs p = (fs', l) ->
  is_prefix p q = false -> is_prefix q p = false -> lookup fs' q = lookup fs q.
Proof.
  intros H Hpq Hqp. destruct (remove_path_cases _ _ _ _ H) as [[-> _]|(o & S & _)].
  - reflexivity.
  - apply (store_lookup_unrelated _ _ _ _ _ S Hpq Hqp).
Qed.

(** After a removal that logged no error nothing is left at the path. *)
Lemma remove_path_gone fs p fs' l x :
  remove_path fs p = (fs', l) -> no_errors l = true -> lookup fs' (p ++ x) = None.
Proof.
  intros H Hl. pose proof H as H0. unfold remove_path, is_file, is_dir in H0.
  destruct (remove_path_cases _ _ _ _ H) as [[-> [-> | ->]] | (o & S & [[-> _] | ->])];
    try discriminate.
  - destruct (lookup fs p) as [[r m d|k es]|] eqn:L.
    + destruct (unlink fs p); discriminate.
    + destruct (rmtree fs p) as [f [|]]; discriminate.
    + apply lookup_below_none; assumption.
  - apply (store_lookup_below _ _ _ _ x S).
Qed.

Lemma remove_path_wf fs p fs' l :
  remove_path fs p = (fs', l) -> no_errors l = true -> wf fs = true -> wf fs' = true.
Proof.
  intros H Hl Hwf.
  destruct (remove_path_cases _ _ _ _ H) as [[-> _] | (o & S & [[-> _] | ->])];
    try discriminate; [assumption|].
  apply (wf_store _ _ _ _ Hwf) in S; [assumption | discriminate].
Qed.

End Mutators.

(** ** Hashing and comparing *)

Section Comparator.

Context `{P : Platform}.

Lemma CHUNK_pos : 0 < CHUNK.
Proof. unfold CHUNK; apply Nat.lt_0_succ. Qed.

(** Reading in chunks feeds the hash object the whole file: the chunk size
    does not show in the digest, and the bound on the reads is enough. *)
Lemma read_chunks_spec fuel : forall h d,
  List.length d < fuel -> read_chunks fuel h d = update h d.
Proof.
  induction fuel as [|k IH]; intros h d Hlen; [inversion Hlen|].
  cbn [read_chunks]. pose proof CHUNK_pos as Hc.
  destruct d as [|b d].
  - rewrite firstn_nil, update_nil; reflexivity.
  - destruct (firstn CHUNK (b :: d)) as [|c chunk] eqn:F.
    + exfalso. apply (f_equal (@List.length byte)) in F.
      rewrite length_firstn in F. cbn [List.length] in F, Hlen. lia.
    + rewrite IH.
      * rewrite update_app, <- F, firstn_skipn; reflexivity.
      * rewrite length_skipn. cbn [List.length] in *. lia.
Qed.

Lemma calculate_file_hash_readable fs p m d :
  lookup fs p = Some (File true m d) ->
  calculate_file_hash fs p = (digest d, []).
Proof.
  intros H. unfold calculate_file_hash, open_rb, digest. rewrite H.
  rewrite read_chunks_spec by apply Nat.lt_succ_diag_r. reflexivity.
Qed.

Lemma calculate_file_hash_fails fs p :
  open_rb fs p = None ->
  calculate_file_hash fs p = (EmptyString, [(ERROR, Error_reading_file p)]).
Proof. intros H. unfold calculate_file_hash. rewrite H; reflexivity. Qed.

Lemma digest_nonempty d : String.eqb EmptyString (digest d) = false.
Proof.
  apply String.eqb_neq. intros E. apply (hexdigest_nonempty (update sha256 d)).
  symmetry; exact E.
Qed.

Lemma digest_nonempty' d : String.eqb (digest d) EmptyString = false.
Proof. rewrite String.eqb_sym. apply digest_nonempty. Qed.

(** When exactly one of the two digests cannot be computed the files are
    reported as different. *)
Lemma files_are_identical_one_unreadable fs a b :
  (open_rb fs a = None /\ open_rb fs b <> None) \/
  (open_rb fs a <> None /\ open_rb fs b = None) ->
  fst (files_are_identical fs a b) = false.
Proof.
  intros H. unfold files_are_identical.
  destruct (negb (exists_ fs a && exists_ fs b)); [reflexivity|].
  destruct (negb (st_size fs a =? st_size fs b)); [reflexivity|].
  unfold calculate_file_hash.
  destruct H as [[Ha Hb]|[Ha Hb]].
  - rewrite Ha. destruct (open_rb fs b) as [d|]; [|congruence].
    cbn [fst]. rewrite read_chunks_spec by apply Nat.lt_succ_diag_r.
    apply digest_nonempty.
  - rewrite Hb. destruct (open_rb fs a) as [d|]; [|congruence].
    cbn [fst]. rewrite read_chunks_spec by apply Nat.lt_succ_diag_r.
    apply digest_nonempty'.
Qed.

(** When neither digest can be computed both calls return the empty string
    and the files are reported as identical. *)
Lemma files_are_identical_both_unreadable fs a b :
  exists_ fs a = true -> exists_ fs b = true ->
  st_size fs a = st_size fs b ->
  open_rb fs a = None -> open_rb fs b = None ->
  files_are_identical fs a b =
  (true, [(ERROR, Error_reading_file a); (ERROR, Error_reading_file b)]).
Proof.
  intros Ea Eb Es Ha Hb. unfold files_are_identical.
  rewrite Ea, Eb, Es, Nat.eqb_refl. cbn [andb negb].
  rewrite !calculate_file_hash_fails by assumption. reflexivity.
Qed.

Lemma files_are_identical_readable fs a b ma da mb db :
  lookup fs a = Some (File true ma da) ->
  lookup fs b = Some (File true mb db) ->
  files_are_identical fs a b =
  ((List.length da =? List.length db) && String.eqb (digest da) (digest db), []).
Proof.
  intros Ha Hb. unfold files_are_identical, exists_, st_size. rewrite Ha, Hb.
  cbn [andb negb]. destruct (List.length da =? List.length db); [|reflexivity].
  cbn [negb]. rewrite (calculate_file_hash_readable _ _ _ _ Ha),
    (calculate_file_hash_readable _ _ _ _ Hb). reflexivity.
Qed.

End Comparator.

(** ** One pass *)

Lemma unrelated_app (q r x : path) :
  is_prefix q r = false -> is_prefix r q = false ->
  is_prefix q (r ++ x) = false /\ is_prefix (r ++ x) q = false.
Proof.
  intros Hqr Hrq. split.
  - destruct (is_prefix q (r ++ x)) eqn:E; [|reflexivity].
    destruct (is_prefix_comparable q r (r ++ x) E (is_prefix_app r x)); congruence.
  - destruct (is_prefix (r ++ x) q) eqn:E; [|reflexivity].
    rewrite (is_prefix_trans _ _ _ (is_prefix_app r x) E) in Hrq; discriminate.
Qed.

Lemma is_prefix_app_nonempty (r x : path) : x <> [] -> is_prefix (r ++ x) r = false.
Proof.
  intros Hx. destruct (is_prefix (r ++ x) r) eqn:E; [|reflexivity].
  pose proof (is_prefix_antisym _ _ E (is_prefix_app r x)) as H.
  rewrite <- (app_nil_r r) in H at 2. apply app_inv_head in H. contradiction.
Qed.

Section Pass.

Context `{P : Platform}.
Variable self : FolderSynchronizer.

Let s := source_path self.
Let r := replica_path self.

(** The three ways a call of [synchronize] goes. *)
Lemma synchronize_cases fs :
  (exists_ fs s = false /\
   synchronize self fs =
   Done (fs, [start_record self; (ERROR, Source_folder_does_not_exist s)])) \/
  (exists_ fs s = true /\ mkdir_parents fs r = None /\
   synchronize self fs = Raised (fs, [start_record self])) \/
  (exists_ fs s = true /\
   exists fs0 fs1 l3 fs2 l4,
     mkdir_parents fs r = Some fs0 /\
     additive_pass self (iter (snapshot fs0 s)) fs0 = (fs1, l3) /\
     subtractive_pass self (snapshot fs0 s) (iter (snapshot fs0 r)) fs1 = (fs2, l4) /\
     synchronize self fs =
     Done (fs2, start_record self :: l3 ++ l4 ++ [(INFO, Synchronization_completed)])).
Proof.
  unfold synchronize. fold s r. destruct (exists_ fs s) eqn:Hs; cbn [negb].
  2:{ left; split; reflexivity. }
  right. destruct (mkdir_parents fs r) as [fs0|] eqn:M.
  2:{ left; repeat split; reflexivity. }
  right. split; [reflexivity|]. exists fs0.
  pose proof (get_directory_structure_log fs0 s) as L1.
  pose proof (get_directory_structure_log fs0 r) as L2.
  unfold snapshot.
  destruct (get_directory_structure fs0 s) as [S1 l1].
  destruct (get_directory_structure fs0 r) as [R1 l2].
  cbn [fst snd] in *. subst l1 l2.
  destruct (additive_pass self (iter S1) fs0) as [fs1 l3]. exists fs1, l3.
  destruct (subtractive_pass self S1 (iter R1) fs1) as [fs2 l4]. exists fs2, l4.
  repeat split; reflexivity.
Qed.

(** *** What a pass leaves alone *)

Lemma process_source_item_lookup_frame fs p fs' l q :
  process_source_item self fs p = (fs', l) ->
  is_prefix q r = false -> is_prefix r q = false ->
  lookup fs' q = lookup fs q.
Proof.
  unfold process_source_item. fold s r. intros H Hqr Hrq.
  destruct (unrelated_app q r p Hqr Hrq) as [Hq1 _].
  assert (Hq2 : is_prefix q ((r ++ p) ++ [basename (s ++ p)]) = false).
  { rewrite <- app_assoc. apply (unrelated_app q r _ Hqr Hrq). }
  destruct (is_dir fs (s ++ p)).
  - destruct (negb (exists_ fs (r ++ p))).
    + apply (create_directory_lookup_frame _ _ _ _ _ H Hq1).
    + injection H as <- _; reflexivity.
  - destruct (negb (exists_ fs (r ++ p))).
    + apply (copy_file_lookup_frame _ _ _ _ _ _ H Hq2).
    + destruct (files_are_identical fs (s ++ p) (r ++ p)) as [[|] l0]; cbn [negb] in H.
      * injection H as <- _; reflexivity.
      * destruct (copy_file fs (s ++ p) (r ++ p)) as [fs1 l1] eqn:C.
        injection H as <- _. apply (copy_file_lookup_frame _ _ _ _ _ _ C Hq2).
Qed.

Lemma process_source_item_is_dir fs p fs' l q :
  process_source_item self fs p = (fs', l) ->
  is_dir fs q = true -> is_dir fs' q = true.
Proof.
  unfold process_source_item. fold s r. intros H Hq.
  destruct (is_dir fs (s ++ p)).
  - destruct (negb (exists_ fs (r ++ p))).
    + apply (create_directory_is_dir _ _ _ _ _ H Hq).
    + injection H as <- _; assumption.
  - destruct (negb (exists_ fs (r ++ p))).
    + apply (copy_file_is_dir _ _ _ _ _ _ H Hq).
    + destruct (files_are_identical fs (s ++ p) (r ++ p)) as [[|] l0]; cbn [negb] in H.
      * injection H as <- _; assumption.
      * destruct (copy_file fs (s ++ p) (r ++ p)) as [fs1 l1] eqn:C.
        injection H as <- _. apply (copy_file_is_dir _ _ _ _ _ _ C Hq).
Qed.

Lemma additive_pass_lookup_frame items : forall fs fs' l q,
  additive_pass self items fs = (fs', l) ->
  is_prefix q r = false -> is_prefix r q = false ->
  lookup fs' q = lookup fs q.
Proof.
  induction items as [|p items IH]; intros fs fs' l q H Hqr Hrq; cbn [additive_pass] in H.
  - injection H as <- _; reflexivity.
  - destruct (process_source_item self fs p) as [fs1 l1] eqn:E1.
    destruct (additive_pass self items fs1) as [fs2 l2] eqn:E2.
    injection H as <- _. rewrite (IH _ _ _ _ E2 Hqr Hrq).
    apply (process_source_item_lookup_frame _ _ _ _ _ E1 Hqr Hrq).
Qed.

Lemma additive_pass_is_dir items : forall fs fs' l q,
  additive_pass self items fs = (fs', l) ->
  is_dir fs q = true -> is_dir fs' q = true.
Proof.
  induction items as [|p items IH]; intros fs fs' l q H Hq; cbn [additive_pass] in H.
  - injection H as <- _; assumption.
  - destruct (process_source_item self fs p) as [fs1 l1] eqn:E1.
    destruct (additive_pass self items fs1) as [fs2 l2] eqn:E2.
    injection H as <- _. apply (IH _ _ _ _ E2).
    apply (process_source_item_is_dir _ _ _ _ _ E1 Hq).
Qed.

Lemma subtractive_pass_lookup_frame S items : forall fs fs' l q,
  subtractive_pass self S items fs = (fs', l) ->
  is_prefix q r = false -> is_prefix r q = false ->
  lookup fs' q = lookup fs q.
Proof.
  induction items as [|p items IH]; intros fs fs' l q H Hqr Hrq;
    cbn [subtractive_pass] in H.
  - injection H as <- _; reflexivity.
  - destruct (process_replica_item self S fs p) as [fs1 l1] eqn:E1.
    destruct (subtractive_pass self S items fs1) as [fs2 l2] eqn:E2.
    injection H as <- _. rewrite (IH _ _ _ _ E2 Hqr Hrq).
    unfold process_replica_item in E1. fold r in E1.
    destruct (set_mem path_eq_dec p S).
    + injection E1 as <- _; reflexivity.
    + destruct (unrelated_app q r p Hqr Hrq) as [H1 H2].
      apply (remove_path_lookup_frame _ _ _ _ _ E1 H2 H1).
Qed.

(** The second loop removes below the replica root only, so what [stat]
    tells about the root and about its ancestors stays. *)
Lemma subtractive_pass_stat_root S items : forall fs fs' l q,
  (forall p, In p items -> p <> []) ->
  subtractive_pass self S items fs = (fs', l) ->
  is_prefix q r = true ->
  stat fs' q = stat fs q.
Proof.
  induction items as [|p items IH]; intros fs fs' l q Hne H Hq;
    cbn [subtractive_pass] in H.
  - injection H as <- _; reflexivity.
  - destruct (process_replica_item self S fs p) as [fs1 l1] eqn:E1.
    destruct (subtractive_pass self S items fs1) as [fs2 l2] eqn:E2.
    injection H as <- _. rewrite (IH _ _ _ _ (fun x Hx => Hne x (or_intror Hx)) E2 Hq).
    unfold process_replica_item in E1. fold r in E1.
    destruct (set_mem path_eq_dec p S).
    + injection E1 as <- _; reflexivity.
    + apply (remove_path_stat_frame _ _ _ _ _ E1).
      destruct (is_prefix (r ++ p) q) eqn:E; [|reflexivity].
      pose proof (is_prefix_app_nonempty r p (Hne p (or_introl eq_refl))) as F.
      rewrite (is_prefix_trans _ _ _ E Hq) in F. discriminate.
Qed.

(** A call leaves every path alone that is neither the replica root, nor
    above it, nor below it. *)
Lemma synchronize_lookup_frame fs q :
  is_prefix q r = false -> is_prefix r q = false ->
  match synchronize self fs with
  | Done (fs', _) | Raised (fs', _) => lookup fs' q = lookup fs q
  end.
Proof.
  intros Hqr Hrq.
  destruct (synchronize_cases fs) as
    [[_ ->]|[(_ & _ & ->)|(_ & fs0 & fs1 & l3 & fs2 & l4 & M & A & B & ->)]];
    try reflexivity.
  rewrite (subtractive_pass_lookup_frame _ _ _ _ _ _ B Hqr Hrq).
  rewrite (additive_pass_lookup_frame _ _ _ _ _ A Hqr Hrq).
  apply (mkdir_parents_lookup_frame _ _ _ _ M Hqr).
Qed.

(** After a call that ran its loops the replica root is a directory. *)
Lemma synchronize_replica_root fs fs' log :
  synchronize self fs = Done (fs', log) ->
  exists_ fs s = true -> is_dir fs' r = true.
Proof.
  intros H Hs.
  destruct (synchronize_cases fs) as
    [[Hs' _]|[(_ & _ & E)|(_ & fs0 & fs1 & l3 & fs2 & l4 & M & A & B & E)]];
    [congruence | congruence |].
  rewrite E in H. injection H as <- _.
  apply is_dir_stat.
  rewrite (subtractive_pass_stat_root _ _ _ _ _ r
             (fun p Hp => snapshot_not_root fs0 r p
                            (Permutation_in p (iter_perm _) Hp)) B (is_prefix_refl r)).
  apply is_dir_stat. apply (additive_pass_is_dir _ _ _ _ _ A).
  apply (mkdir_parents_is_dir _ _ _ M).
Qed.

End Pass.


Section Idempotence.

Context `{P : Platform}.
Variable self : FolderSynchronizer.

Let s := source_path self.
Let r := replica_path self.

Lemma subtractive_pass_targets S items : forall fs,
  subtractive_pass self S items fs = remove_paths (removal_targets self S items) fs.
Proof.
  induction items as [|p items IH]; intros fs; [reflexivity|].
  cbn [subtractive_pass]. unfold process_replica_item, removal_targets.
  cbn [filter]. destruct (set_mem path_eq_dec p S); cbn [negb map remove_paths].
  - rewrite IH. unfold removal_targets.
    destruct (remove_paths _ fs) as [fs2 l2]; reflexivity.
  - destruct (remove_path fs (replica_path self ++ p)) as [fs1 l1].
    rewrite IH; reflexivity.
Qed.

(** On a replica entry that agrees with the source entry the first loop
    changes nothing and reports no change. *)
Lemma process_source_item_agreeing fs p :
  same_entry (stat fs (s ++ p)) (stat fs (r ++ p)) ->
  exists l, process_source_item self fs p = (fs, l) /\ no_mutations l = true.
Proof.
  unfold same_entry, stat, process_source_item, is_dir, exists_. fold s r.
  destruct (lookup fs (s ++ p)) as [[r1 m1 d1|l1 es1]|] eqn:Ls; cbn [shallow];
    [| |intros []].
  - destruct (lookup fs (r ++ p)) as [[r2 m2 d2|l2 es2]|] eqn:Lr; cbn [shallow];
      try solve [intros []]. intros [<- Hr]. cbn [negb].
    destruct r1, r2; try (specialize (Hr eq_refl); discriminate Hr).
    + rewrite (files_are_identical_readable _ _ _ _ _ _ _ Ls Lr).
      rewrite Nat.eqb_refl, String.eqb_refl. cbn. eauto.
    + assert (Fi : files_are_identical fs (s ++ p) (r ++ p) =
                   (false, [(ERROR, Error_reading_file (s ++ p))])).
      { unfold files_are_identical, exists_, st_size. rewrite Ls, Lr.
        cbn [andb negb]. rewrite Nat.eqb_refl. cbn [negb].
        rewrite calculate_file_hash_fails by (unfold open_rb; rewrite Ls; reflexivity).
        rewrite (calculate_file_hash_readable _ _ _ _ Lr).
        rewrite digest_nonempty. reflexivity. }
      rewrite Fi. cbn [negb].
      rewrite copy_file_unreadable_source.
      * cbn. eauto.
      * unfold open_rb; rewrite Ls; reflexivity.
      * unfold is_file; rewrite Lr; reflexivity.
    + rewrite files_are_identical_both_unreadable.
      * cbn. eauto.
      * unfold exists_; rewrite Ls; reflexivity.
      * unfold exists_; rewrite Lr; reflexivity.
      * unfold st_size; rewrite Ls, Lr; reflexivity.
      * unfold open_rb; rewrite Ls; reflexivity.
      * unfold open_rb; rewrite Lr; reflexivity.
  - destruct (lookup fs (r ++ p)) as [[r2 m2 d2|l2 es2]|]; cbn [shallow];
      try solve [intros []]. intros _. cbn. eauto.
Qed.

Lemma additive_pass_agreeing items : forall fs,
  (forall p, In p items -> same_entry (stat fs (s ++ p)) (stat fs (r ++ p))) ->
  exists l, additive_pass self items fs = (fs, l) /\ no_mutations l = true.
Proof.
  induction items as [|p items IH]; intros fs H.
  - exists []; split; reflexivity.
  - cbn [additive_pass].
    destruct (process_source_item_agreeing fs p (H p (or_introl eq_refl)))
      as (l1 & -> & H1).
    destruct (IH fs (fun q Hq => H q (or_intror Hq))) as (l2 & -> & H2).
    exists (l1 ++ l2); split; [reflexivity|].
    rewrite no_mutations_app, H1, H2; reflexivity.
Qed.

Lemma subtractive_pass_nothing S items : forall fs,
  (forall p, In p items -> In p S) ->
  subtractive_pass self S items fs = (fs, []).
Proof.
  induction items as [|p items IH]; intros fs H; [reflexivity|].
  cbn [subtractive_pass]. unfold process_replica_item.
  pose proof (H p (or_introl eq_refl)) as Hp.
  apply (set_mem_correct2 path_eq_dec) in Hp. rewrite Hp.
  rewrite (IH fs (fun q Hq => H q (or_intror Hq))). reflexivity.
Qed.

(** On a replica that mirrors the source a call changes nothing and
    reports no change. *)
Lemma synchronize_converged fs :
  converged self fs ->
  exists log, synchronize self fs = Done (fs, log) /\ no_mutations log = true.
Proof.
  intros (Hr & Hsets & Hsame).
  destruct (synchronize_cases self fs) as
    [[_ E]|[(_ & M & _)|(_ & fs0 & fs1 & l3 & fs2 & l4 & M & A & B & E)]].
  - rewrite E. eexists; split; reflexivity.
  - rewrite (mkdir_parents_id _ _ Hr) in M; discriminate.
  - rewrite (mkdir_parents_id _ _ Hr) in M. injection M as <-.
    destruct (additive_pass_agreeing (iter (snapshot fs (source_path self))) fs)
      as (l & A' & Hl).
    { intros p Hp. apply Hsame. apply (Permutation_in p (iter_perm _) Hp). }
    rewrite A' in A. injection A as <- <-.
    rewrite subtractive_pass_nothing in B.
    2:{ intros p Hp. apply Hsets. apply (Permutation_in p (iter_perm _) Hp). }
    injection B as <- <-. rewrite E. eexists; split; [reflexivity|].
    cbn. rewrite !no_mutations_app, Hl. reflexivity.
Qed.

End Idempotence.

(** * The synchroniser's contract *)

Section Contract.

Context `{P : Platform}.

(** ** Missing source *)

(** C1. When the source root does not exist at the time [synchronize] is
    called, the call logs an error and returns, and the filesystem it leaves
    is the one it found: nothing below the replica root is created,
    overwritten or removed. *)
Theorem synchronize_missing_source (self : FolderSynchronizer) (fs : node) :
  exists_ fs (source_path self) = false ->
  synchronize self fs =
  Done (fs, [(INFO, Starting_synchronization (source_path self) (replica_path self));
             (ERROR, Source_folder_does_not_exist (source_path self))]).
Proof.
  intros H. unfold synchronize. rewrite H. reflexivity.
Qed.

(** ** Comparing files *)

(** C3. Two existing files of equal size neither of which can be read: both
    digest computations fail, and [files_are_identical] returns [True], so
    that the first loop of [synchronize] does not copy the file. *)
Theorem files_are_identical_unverifiable_pair :
  files_are_identical fs_both_unreadable
    ["data"; "source"; "f"]%string ["data"; "replica"; "f"]%string =
  (true, [(ERROR, Error_reading_file ["data"; "source"; "f"]%string);
          (ERROR, Error_reading_file ["data"; "replica"; "f"]%string)]) /\
  process_source_item side_by_side fs_both_unreadable ["f"]%string =
  (fs_both_unreadable,
   [(ERROR, Error_reading_file ["data"; "source"; "f"]%string);
    (ERROR, Error_reading_file ["data"; "replica"; "f"]%string)]).
Proof.
  assert (E : files_are_identical fs_both_unreadable
    ["data"; "source"; "f"]%string ["data"; "replica"; "f"]%string =
    (true, [(ERROR, Error_reading_file ["data"; "source"; "f"]%string);
            (ERROR, Error_reading_file ["data"; "replica"; "f"]%string)]))
    by (apply files_are_identical_both_unreadable; reflexivity).
  split; [exact E|].
  unfold process_source_item.
  change (source_path side_by_side ++ ["f"%string])
    with ["data"; "source"; "f"]%string.
  change (replica_path side_by_side ++ ["f"%string])
    with ["data"; "replica"; "f"]%string.
  rewrite E. reflexivity.
Qed.


(** ** Removing *)


(** ** Enumerating *)


(** ** The first loop on entries of different kinds *)


(** ** A second pass *)

(** C4. A call of [synchronize] that follows a call after which the replica
    mirrors the source, with nothing changed in between, leaves the
    filesystem as it is and logs no copy, no creation of a directory and no
    removal. *)
Theorem synchronize_idempotent (self : FolderSynchronizer)
    (fs0 fs1 : node) (log1 : list record) :
  synchronize self fs0 = Done (fs1, log1) ->
  converged self fs1 ->
  exists log2, synchronize self fs1 = Done (fs1, log2) /\ no_mutations log2 = true.
Proof.
  intros _ H. apply (synchronize_converged self fs1 H).
Qed.

(** ** The source *)


(** ** The replica root *)

(** C10. No snapshot contains the empty relative path, so the root itself;
    hence none of the paths the second loop hands to [remove_path] is the
    replica root; and after a call that found the source, the replica root
    is a directory, as it is after any call that found it one. *)
Theorem replica_root_survives (self : FolderSynchronizer) (fs : node) :
  (forall top, ~ In [] (snapshot fs top)) /\
  (forall S, ~ In (replica_path self)
               (removal_targets self S (iter (snapshot fs (replica_path self))))) /\
  (forall fs' log, synchronize self fs = Done (fs', log) ->
                   exists_ fs (source_path self) = true ->
                   is_dir fs' (replica_path self) = true) /\
  (is_dir fs (replica_path self) = true ->
   match synchronize self fs with
   | Done (fs', _) | Raised (fs', _) => is_dir fs' (replica_path self) = true
   end).
Proof.
  split; [|split; [|split]].
  - intros top H. apply (snapshot_not_root fs top [] H). reflexivity.
  - intros S H. unfold removal_targets in H. apply in_map_iff in H.
    destruct H as (rel & E & Hin). apply filter_In in Hin. destruct Hin as [Hin _].
    apply (Permutation_in rel (iter_perm _)) in Hin.
    apply snapshot_not_root in Hin. apply Hin.
    rewrite <- (app_nil_r (replica_path self)) in E at 2.
    apply app_inv_head in E. exact E.
  - intros fs' log H Hs. apply (synchronize_replica_root self fs fs' log H Hs).
  - intros Hr.
    destruct (synchronize_cases self fs) as
      [[_ E]|[(_ & _ & E)|(Hs & fs0 & fs1 & l3 & fs2 & l4 & _ & _ & _ & E)]].
    + rewrite E. exact Hr.
    + rewrite E. exact Hr.
    + rewrite E. apply (synchronize_replica_root self fs fs2 _ E Hs).
Qed.

End Contract.

(** * Convergence *)

Lemma matches_none a : ~ matches a None.
Proof. destruct a as [[[|] m d|l]|]; intros []. Qed.

Lemma matches_same_entry a b : matches a b -> same_entry a b.
Proof.
  destruct a as [[[|] m d|l]|]; destruct b as [[[|] m' d'|[|]]|]; simpl;
    try intros []; auto.
Qed.

Lemma matches_kind a b : matches (Some a) (Some b) -> is_edir a = is_edir b.
Proof.
  destruct a as [[|] m d|l]; destruct b as [[|] m' d'|[|]]; simpl;
    try intros []; auto.
Qed.

Section Convergence.

Context `{P : Platform}.
Variable self : FolderSynchronizer.

Let s := source_path self.
Let r := replica_path self.

(** The filesystem the two loops start from. *)
Variable fs0 : node.

Let S := snapshot fs0 s.

Hypothesis Hdisj1 : is_prefix s r = false.
Hypothesis Hdisj2 : is_prefix r s = false.
Hypothesis Hwf0 : wf fs0 = true.
Hypothesis Hroot0 : is_dir fs0 r = true.
Hypothesis Hlist0 : forall q l, stat fs0 (r ++ q) = Some (EDir l) -> l = true.
Hypothesis Hkind0 : forall q a b,
  In q S -> stat fs0 (s ++ q) = Some a -> stat fs0 (r ++ q) = Some b ->
  is_edir a = is_edir b.
Hypothesis Hcoll0 : forall q r1 m1 d1 r2 m2 d2,
  In q S ->
  stat fs0 (s ++ q) = Some (EFile r1 m1 d1) ->
  stat fs0 (r ++ q) = Some (EFile r2 m2 d2) ->
  digest d1 = digest d2 -> d1 = d2.

Definition Matched (fs : node) (q : path) : Prop :=
  matches (stat fs0 (s ++ q)) (stat fs (r ++ q)).

(** From [fs] to [fs'] the replica changed only where it did not match the
    source, and there it matches now. *)
Definition Eff (fs fs' : node) : Prop :=
  forall q, stat fs' (r ++ q) = stat fs (r ++ q) \/
            (~ Matched fs q /\ In q S /\ Matched fs' q).

Definition Inv (fs : node) : Prop :=
  lookup fs s = lookup fs0 s /\ wf fs = true /\ Eff fs0 fs.

Lemma Eff_refl fs : Eff fs fs.
Proof. intros q; left; reflexivity. Qed.

Lemma Eff_trans fs1 fs2 fs3 : Eff fs1 fs2 -> Eff fs2 fs3 -> Eff fs1 fs3.
Proof.
  intros H12 H23 q. unfold Matched in *.
  destruct (H12 q) as [E12|(N1 & I1 & M2)]; destruct (H23 q) as [E23|(N2 & I2 & M3)].
  - left; congruence.
  - right. rewrite <- E12. auto.
  - right. rewrite E23. auto.
  - contradiction.
Qed.

Lemma Matched_mono fs fs' q : Eff fs fs' -> Matched fs q -> Matched fs' q.
Proof.
  intros H M. unfold Matched in *. destruct (H q) as [E|(N & _ & _)].
  - rewrite E; assumption.
  - contradiction.
Qed.

Lemma Inv0 : Inv fs0.
Proof. repeat split; [assumption | apply Eff_refl]. Qed.

Lemma S_nonempty p : In p S -> p <> [].
Proof. apply snapshot_not_root. Qed.

Lemma S_prefix_dir q1 q2 :
  In (q1 ++ q2) S -> q2 <> [] -> stat fs0 (s ++ q1) = Some (EDir true).
Proof.
  intros H Hq2. apply (snapshot_iff fs0 s _ Hwf0) in H.
  destruct H as (_ & _ & H). apply (H q1 q2 eq_refl Hq2).
Qed.

Lemma S_exists p : In p S -> stat fs0 (s ++ p) <> None.
Proof.
  intros H. apply (snapshot_iff fs0 s _ Hwf0) in H. apply H.
Qed.

Lemma S_prefix_in q1 q2 : In (q1 ++ q2) S -> q1 <> [] -> In q1 S.
Proof. apply (snapshot_prefix_closed fs0 s q1 q2 Hwf0). Qed.

Lemma Inv_source_stat fs q : Inv fs -> stat fs (s ++ q) = stat fs0 (s ++ q).
Proof. intros (H & _). rewrite !stat_app, H. reflexivity. Qed.

Lemma Inv_source_lookup fs q : Inv fs -> lookup fs (s ++ q) = lookup fs0 (s ++ q).
Proof. intros (H & _). rewrite !lookup_app, H. reflexivity. Qed.

Lemma Inv_root fs : Inv fs -> is_dir fs r = true.
Proof.
  intros (_ & _ & H). destruct (H []) as [E|(_ & Hin & _)].
  - rewrite app_nil_r in E. apply is_dir_stat. rewrite E.
    apply is_dir_stat; assumption.
  - exfalso. apply (S_nonempty _ Hin). reflexivity.
Qed.

Lemma Inv_listable fs q l : Inv fs -> stat fs (r ++ q) = Some (EDir l) -> l = true.
Proof.
  intros (_ & _ & H) Hq. destruct (H q) as [E|(_ & _ & M)].
  - rewrite E in Hq. apply (Hlist0 q l Hq).
  - unfold Matched in M. rewrite Hq in M.
    destruct (stat fs0 (s ++ q)) as [[[|] m d|k]|]; destruct l; simpl in M;
      try contradiction; reflexivity.
Qed.

Lemma Inv_kind fs q a b :
  Inv fs -> In q S -> stat fs0 (s ++ q) = Some a -> stat fs (r ++ q) = Some b ->
  is_edir a = is_edir b.
Proof.
  intros (_ & _ & H) Hin Ha Hb. destruct (H q) as [E|(_ & _ & M)].
  - rewrite E in Hb. apply (Hkind0 q a b Hin Ha Hb).
  - unfold Matched in M. rewrite Ha, Hb in M.
    apply (matches_kind a b M).
Qed.

Lemma Inv_collision fs q r1 m1 d1 r2 m2 d2 :
  Inv fs -> In q S ->
  stat fs0 (s ++ q) = Some (EFile r1 m1 d1) ->
  stat fs (r ++ q) = Some (EFile r2 m2 d2) ->
  digest d1 = digest d2 -> d1 = d2.
Proof.
  intros (_ & _ & H) Hin Ha Hb Hd. destruct (H q) as [E|(_ & _ & M)].
  - rewrite E in Hb. apply (Hcoll0 q r1 m1 d1 r2 m2 d2 Hin Ha Hb Hd).
  - unfold Matched in M. rewrite Ha, Hb in M.
    destruct r1, r2; simpl in M; try contradiction; assumption.
Qed.

Lemma source_unrelated x : is_prefix s (r ++ x) = false.
Proof. apply (unrelated_app s r x Hdisj1 Hdisj2). Qed.

(** Creating the replica directory for a source directory, or the parents
    of a replica file. *)
Lemma mkdir_eff fs p t fs1 :
  Inv fs -> In p S -> is_prefix t p = true ->
  (t = p -> exists l, stat fs0 (s ++ p) = Some (EDir l)) ->
  mkdir_parents fs (r ++ t) = Some fs1 ->
  Inv fs1 /\ Eff fs fs1.
Proof.
  intros HI Hp Ht Htp M.
  assert (E : Eff fs fs1).
  { intros q. destruct (mkdir_parents_stat _ _ _ (r ++ q) M) as [E|(Hq & Hn & Hd)];
      [left; assumption|]. right.
    rewrite is_prefix_app_same in Hq.
    assert (Hq0 : q <> []).
    { intros ->. rewrite app_nil_r in Hn. pose proof (Inv_root fs HI) as Hr.
      apply is_dir_stat in Hr. destruct Hr as [l Hr]. congruence. }
    pose proof (is_prefix_trans _ _ _ Hq Ht) as Hqp.
    apply is_prefix_split in Hqp. destruct Hqp as [x ->].
    split; [unfold Matched; rewrite Hn; apply matches_none|].
    split; [apply (S_prefix_in q x Hp Hq0)|].
    unfold Matched. rewrite Hd.
    destruct x as [|c x].
    - rewrite app_nil_r in *.
      destruct (Htp (is_prefix_antisym _ _ Ht Hq)) as [l ->]. exact I.
    - rewrite (S_prefix_dir q (c :: x) Hp); [exact I | discriminate]. }
  split; [|exact E]. destruct HI as (H1 & H2 & H3). split; [|split].
  - rewrite <- H1. apply (mkdir_parents_lookup_frame _ _ _ _ M (source_unrelated t)).
  - apply (wf_mkdir_parents _ _ _ H2 M).
  - apply (Eff_trans _ _ _ H3 E).
Qed.

(** Writing the replica file for a source file. *)
Lemma store_eff fs p m d fs' :
  Inv fs -> In p S ->
  stat fs0 (s ++ p) = Some (EFile true m d) ->
  ~ Matched fs p -> is_dir fs (r ++ p) = false ->
  store fs (r ++ p) (Some (File true m d)) = Some fs' ->
  Inv fs' /\ Eff fs fs' /\ Matched fs' p.
Proof.
  intros HI Hp Hs Hnm Hd St.
  assert (Hat : stat fs' (r ++ p) = Some (EFile true m d)).
  { unfold stat. rewrite (store_lookup_at _ _ _ _ St). reflexivity. }
  assert (Hm : Matched fs' p).
  { unfold Matched. rewrite Hs, Hat. reflexivity. }
  assert (E : Eff fs fs').
  { intros q. destruct (is_prefix (r ++ p) (r ++ q)) eqn:Hpq.
    - rewrite is_prefix_app_same in Hpq. apply is_prefix_split in Hpq.
      destruct Hpq as [x ->]. destruct x as [|c x].
      + rewrite app_nil_r. right; auto.
      + left. rewrite !app_assoc.
        rewrite (stat_below_file fs' (r ++ p) (c :: x) true m d Hat) by discriminate.
        unfold is_dir in Hd. rewrite stat_app.
        destruct (lookup fs (r ++ p)) as [[r0 m0 d0|l es]|]; try discriminate;
          reflexivity.
    - left. apply (store_stat_frame _ _ _ _ _ St Hpq). }
  split; [|split; assumption].
  destruct HI as (H1 & H2 & H3). split; [|split].
  - rewrite <- H1.
    apply (store_file_lookup_frame _ _ _ _ _ _ _ St Hd (source_unrelated p)).
  - apply (wf_store _ _ _ _ H2) in St; [assumption|]. intros n E0.
    injection E0 as <-. reflexivity.
  - apply (Eff_trans _ _ _ H3 E).
Qed.

(** A comparison that says [True] without logging a read error has computed
    both digests and found them equal. *)
Lemma files_are_identical_true_clean fs a b l ra ma da rb mb db :
  files_are_identical fs a b = (true, l) -> no_errors l = true ->
  lookup fs a = Some (File ra ma da) -> lookup fs b = Some (File rb mb db) ->
  ra = true /\ rb = true /\ digest da = digest db.
Proof.
  intros H Hl La Lb. destruct ra, rb.
  - rewrite (files_are_identical_readable _ _ _ _ _ _ _ La Lb) in H.
    injection H as H _. apply andb_true_iff in H. destruct H as [_ H].
    apply String.eqb_eq in H. auto.
  - exfalso. pose proof (files_are_identical_one_unreadable fs a b) as F.
    rewrite H in F. discriminate F. right. unfold open_rb. rewrite La, Lb.
    split; [discriminate | reflexivity].
  - exfalso. pose proof (files_are_identical_one_unreadable fs a b) as F.
    rewrite H in F. discriminate F. left. unfold open_rb. rewrite La, Lb.
    split; [reflexivity | discriminate].
  - exfalso. unfold files_are_identical in H.
    destruct (negb (exists_ fs a && exists_ fs b)); [discriminate|].
    destruct (negb (st_size fs a =? st_size fs b)); [discriminate|].
    rewrite !calculate_file_hash_fails in H
      by (unfold open_rb; rewrite ?La, ?Lb; reflexivity).
    apply (f_equal snd) in H. cbn [snd app] in H. subst l. discriminate Hl.
Qed.

Lemma removelast_neq (p : path) : p <> [] -> removelast p <> p.
Proof.
  intros Hp E. pose proof (app_removelast_last EmptyString Hp) as H.
  rewrite E in H. apply (f_equal (@List.length string)) in H.
  rewrite length_app in H. cbn [List.length] in H. lia.
Qed.

(** Copying a source file over a replica entry that is not a directory. *)
Lemma copy_eff fs p rs ms ds fs' l :
  Inv fs -> In p S ->
  stat fs0 (s ++ p) = Some (EFile rs ms ds) ->
  is_dir fs (r ++ p) = false -> ~ Matched fs p ->
  copy_file fs (s ++ p) (r ++ p) = (fs', l) -> no_errors l = true ->
  Inv fs' /\ Eff fs fs' /\ Matched fs' p.
Proof.
  intros HI Hp Hs Hd Hnm C Hl.
  pose proof (S_nonempty p Hp) as Hne.
  destruct (copy_file_cases _ _ _ _ _ C) as [(fs1 & M & C2 & _)|(-> & _)];
    [|discriminate Hl].
  rewrite (removelast_app_path r p Hne) in M.
  destruct (mkdir_eff fs p (removelast p) fs1 HI Hp (is_prefix_removelast p)) as [HI1 E1];
    [intros E; destruct (removelast_neq p Hne E) | exact M |].
  assert (Hnp : is_prefix (r ++ p) (r ++ removelast p) = false).
  { rewrite is_prefix_app_same. destruct (is_prefix p (removelast p)) eqn:F; [|reflexivity].
    destruct (removelast_neq p Hne).
    apply is_prefix_antisym; [apply is_prefix_removelast | assumption]. }
  pose proof (mkdir_parents_lookup_frame _ _ _ _ M Hnp) as Lrp.
  assert (Hd1 : is_dir fs1 (r ++ p) = false) by (unfold is_dir in *; rewrite Lrp; assumption).
  assert (Hnm1 : ~ Matched fs1 p) by (unfold Matched, stat in *; rewrite Lrp; assumption).
  destruct (copy2_inv _ _ _ _ C2) as (m & d & dstf & Ed & Ls & _ & _ & St).
  rewrite Hd1 in Ed. subst dstf.
  rewrite (Inv_source_lookup fs1 p HI1) in Ls.
  assert (Hs' : stat fs0 (s ++ p) = Some (EFile true m d))
    by (unfold stat; rewrite Ls; reflexivity).
  destruct (store_eff fs1 p m d fs' HI1 Hp Hs' Hnm1 Hd1 St) as (HI' & E2 & Hm).
  split; [assumption|]. split; [apply (Eff_trans _ _ _ E1 E2) | assumption].
Qed.

(** One turn of the first loop that logs no error. *)
Lemma process_source_item_eff fs p fs' l :
  Inv fs -> In p S ->
  process_source_item self fs p = (fs', l) -> no_errors l = true ->
  Inv fs' /\ Eff fs fs' /\ Matched fs' p.
Proof.
  intros HI Hp H Hl. unfold process_source_item in H. fold s r in H.
  pose proof (Inv_source_stat fs p HI) as Hss.
  pose proof (S_exists p Hp) as Hex.
  destruct (is_dir fs (s ++ p)) eqn:Hsd.
  - apply is_dir_stat in Hsd. destruct Hsd as [ls Hsd]. rewrite Hss in Hsd.
    destruct (exists_ fs (r ++ p)) eqn:Hre; cbn [negb] in H.
    + injection H as <- <-. split; [assumption|]. split; [apply Eff_refl|].
      unfold Matched. rewrite Hsd.
      apply exists_stat in Hre. destruct (stat fs (r ++ p)) as [b|] eqn:Hb; [|congruence].
      pose proof (Inv_kind fs p _ _ HI Hp Hsd Hb) as K.
      destruct b as [? ? ?|k]; [discriminate K|].
      rewrite (Inv_listable fs p k HI Hb). exact I.
    + destruct (create_directory_cases _ _ _ _ H) as [[M ->]|[_ ->]];
        [|discriminate Hl].
      destruct (mkdir_eff fs p p fs' HI Hp (is_prefix_refl p)
                  (fun _ => ex_intro _ ls Hsd) M) as [HI' E].
      split; [assumption|]. split; [assumption|].
      unfold Matched. rewrite Hsd.
      destruct (mkdir_parents_stat_on_path _ _ _ _ M (is_prefix_refl (r ++ p)))
        as (k & -> & [Hk|[_ ->]]); [|exact I].
      assert (Hn : stat fs (r ++ p) = None).
      { unfold stat. unfold exists_ in Hre. destruct (lookup fs (r ++ p)); [discriminate|reflexivity]. }
      congruence.
  - assert (Hsf : exists rs ms ds, stat fs0 (s ++ p) = Some (EFile rs ms ds)).
    { destruct (stat fs0 (s ++ p)) as [[rs ms ds|k]|] eqn:E0; [eauto| |congruence].
      assert (is_dir fs (s ++ p) = true) by (apply is_dir_stat; rewrite Hss; eauto).
      congruence. }
    destruct Hsf as (rs & ms & ds & Hsf).
    destruct (exists_ fs (r ++ p)) eqn:Hre; cbn [negb] in H.
    + apply exists_stat in Hre.
      destruct (stat fs (r ++ p)) as [b|] eqn:Hb; [|congruence].
      pose proof (Inv_kind fs p _ _ HI Hp Hsf Hb) as K.
      destruct b as [rr mr dr|k]; [|discriminate K].
      assert (Lr : lookup fs (r ++ p) = Some (File rr mr dr)).
      { unfold stat in Hb. destruct (lookup fs (r ++ p)) as [[? ? ?|? ?]|];
          try discriminate. injection Hb as -> -> ->. reflexivity. }
      assert (Lsrc : lookup fs (s ++ p) = Some (File rs ms ds)).
      { rewrite (Inv_source_lookup fs p HI). unfold stat in Hsf.
        destruct (lookup fs0 (s ++ p)) as [[? ? ?|? ?]|]; try discriminate.
        injection Hsf as -> -> ->. reflexivity. }
      assert (Hd : is_dir fs (r ++ p) = false) by (unfold is_dir; rewrite Lr; reflexivity).
      destruct (files_are_identical fs (s ++ p) (r ++ p)) as [[|] l0] eqn:Fi;
        cbn [negb] in H.
      * injection H as <- <-. split; [assumption|]. split; [apply Eff_refl|].
        destruct (files_are_identical_true_clean _ _ _ _ _ _ _ _ _ _ Fi Hl Lsrc Lr)
          as (-> & -> & Hdig).
        unfold Matched. rewrite Hsf, Hb. simpl.
        apply (Inv_collision fs p _ _ _ _ _ _ HI Hp Hsf Hb Hdig).
      * destruct (copy_file fs (s ++ p) (r ++ p)) as [fs1 l1] eqn:C.
        injection H as <- <-. rewrite no_errors_app in Hl.
        apply andb_true_iff in Hl. destruct Hl as [_ Hl1].
        apply (copy_eff fs p rs ms ds fs1 l1 HI Hp Hsf Hd); [|assumption|assumption].
        unfold Matched. rewrite Hsf, Hb. intros Hm.
        destruct rs, rr; simpl in Hm; try contradiction. subst dr.
        rewrite (files_are_identical_readable _ _ _ _ _ _ _ Lsrc Lr) in Fi.
        rewrite Nat.eqb_refl, String.eqb_refl in Fi. discriminate Fi.
    + assert (Hn : stat fs (r ++ p) = None).
      { unfold stat. unfold exists_ in Hre. destruct (lookup fs (r ++ p)); [discriminate|reflexivity]. }
      apply (copy_eff fs p rs ms ds fs' l HI Hp Hsf); try assumption.
      * unfold is_dir. unfold exists_ in Hre.
        destruct (lookup fs (r ++ p)); [discriminate | reflexivity].
      * unfold Matched. rewrite Hn. apply matches_none.
Qed.

(** The first loop, when it logs no error. *)
Lemma additive_pass_eff items : forall fs fs' l,
  Inv fs -> (forall p, In p items -> In p S) ->
  additive_pass self items fs = (fs', l) -> no_errors l = true ->
  Inv fs' /\ Eff fs fs' /\ forall p, In p items -> Matched fs' p.
Proof.
  induction items as [|p items IH]; intros fs fs' l HI Hitems H Hl;
    cbn [additive_pass] in H.
  - injection H as <- _. split; [assumption|]. split; [apply Eff_refl|]. intros p [].
  - destruct (process_source_item self fs p) as [fs1 l1] eqn:E1.
    destruct (additive_pass self items fs1) as [fs2 l2] eqn:E2.
    injection H as <- <-. rewrite no_errors_app in Hl.
    apply andb_true_iff in Hl. destruct Hl as [Hl1 Hl2].
    destruct (process_source_item_eff fs p fs1 l1 HI (Hitems p (or_introl eq_refl)) E1 Hl1)
      as (HI1 & Ef1 & Hm1).
    destruct (IH fs1 fs2 l2 HI1 (fun q Hq => Hitems q (or_intror Hq)) E2 Hl2)
      as (HI2 & Ef2 & Hm2).
    split; [assumption|]. split; [apply (Eff_trans _ _ _ Ef1 Ef2)|].
    intros q [<-|Hq]; [apply (Matched_mono _ _ _ Ef2 Hm1) | apply (Hm2 q Hq)].
Qed.

(** From [fs] to [fs'] the replica changed only where entries that the
    source lacks were removed. *)
Definition Eff2 (fs fs' : node) : Prop :=
  forall q, stat fs' (r ++ q) = stat fs (r ++ q) \/
            (stat fs' (r ++ q) = None /\ q <> [] /\ ~ In q S).

Lemma Eff2_refl fs : Eff2 fs fs.
Proof. intros q; left; reflexivity. Qed.

Lemma Eff2_trans fs1 fs2 fs3 : Eff2 fs1 fs2 -> Eff2 fs2 fs3 -> Eff2 fs1 fs3.
Proof.
  intros H12 H23 q.
  destruct (H12 q) as [E12|(N2 & Hq & Hn)]; destruct (H23 q) as [E23|(N3 & Hq' & Hn')].
  - left; congruence.
  - right; auto.
  - right. rewrite E23. auto.
  - right; auto.
Qed.

Lemma Eff2_none fs fs' q :
  Eff2 fs fs' -> stat fs (r ++ q) = None -> stat fs' (r ++ q) = None.
Proof. intros H Hn. destruct (H q) as [E|(E & _)]; congruence. Qed.

(** One turn of the second loop that logs no error. *)
Lemma process_replica_item_eff fs q0 fs' l :
  lookup fs s = lookup fs0 s -> wf fs = true -> q0 <> [] ->
  process_replica_item self S fs q0 = (fs', l) -> no_errors l = true ->
  lookup fs' s = lookup fs0 s /\ wf fs' = true /\ Eff2 fs fs' /\
  (~ In q0 S -> stat fs' (r ++ q0) = None).
Proof.
  intros Hs Hwf Hq0 H Hl. unfold process_replica_item in H. fold r in H.
  destruct (set_mem path_eq_dec q0 S) eqn:Hm.
  - injection H as <- _. split; [assumption|]. split; [assumption|].
    split; [apply Eff2_refl|]. intros Hn. apply set_mem_correct1 in Hm. contradiction.
  - apply set_mem_complete1 in Hm.
    destruct (unrelated_app s r q0 Hdisj1 Hdisj2) as [U1 U2].
    split; [|split; [|split]].
    + rewrite <- Hs. apply (remove_path_lookup_frame _ _ _ _ _ H U2 U1).
    + apply (remove_path_wf _ _ _ _ H Hl Hwf).
    + intros q. destruct (is_prefix (r ++ q0) (r ++ q)) eqn:E.
      * right. rewrite is_prefix_app_same in E. apply is_prefix_split in E.
        destruct E as [x ->]. split; [|split].
        -- unfold stat. rewrite app_assoc.
           rewrite (remove_path_gone _ _ _ _ x H Hl). reflexivity.
        -- destruct q0; [congruence | discriminate].
        -- intros Hin. apply Hm. apply (S_prefix_in q0 x Hin Hq0).
      * left. apply (remove_path_stat_frame _ _ _ _ _ H E).
    + intros _. unfold stat.
      pose proof (remove_path_gone _ _ _ _ [] H Hl) as G.
      rewrite app_nil_r in G. rewrite G. reflexivity.
Qed.

(** The second loop, when it logs no error. *)
Lemma subtractive_pass_eff items : forall fs fs' l,
  lookup fs s = lookup fs0 s -> wf fs = true ->
  (forall q, In q items -> q <> []) ->
  subtractive_pass self S items fs = (fs', l) -> no_errors l = true ->
  lookup fs' s = lookup fs0 s /\ wf fs' = true /\ Eff2 fs fs' /\
  forall q, In q items -> ~ In q S -> stat fs' (r ++ q) = None.
Proof.
  induction items as [|q0 items IH]; intros fs fs' l Hs Hwf Hne H Hl;
    cbn [subtractive_pass] in H.
  - injection H as <- _. split; [assumption|]. split; [assumption|].
    split; [apply Eff2_refl|]. intros q [].
  - destruct (process_replica_item self S fs q0) as [fs1 l1] eqn:E1.
    destruct (subtractive_pass self S items fs1) as [fs2 l2] eqn:E2.
    injection H as <- <-. rewrite no_errors_app in Hl.
    apply andb_true_iff in Hl. destruct Hl as [Hl1 Hl2].
    destruct (process_replica_item_eff fs q0 fs1 l1 Hs Hwf (Hne q0 (or_introl eq_refl)) E1 Hl1)
      as (Hs1 & Hwf1 & Ef1 & G1).
    destruct (IH fs1 fs2 l2 Hs1 Hwf1 (fun q Hq => Hne q (or_intror Hq)) E2 Hl2)
      as (Hs2 & Hwf2 & Ef2 & G2).
    split; [assumption|]. split; [assumption|].
    split; [apply (Eff2_trans _ _ _ Ef1 Ef2)|].
    intros q [<-|Hq] Hn; [apply (Eff2_none _ _ _ Ef2 (G1 Hn)) | apply (G2 q Hq Hn)].
Qed.

Lemma matches_dir l b : matches (Some (EDir l)) b -> b = Some (EDir true).
Proof. destruct b as [[? ? ?|[|]]|]; simpl; intros H; try contradiction; reflexivity. Qed.

(** Both loops without an error record leave a replica that mirrors the
    source. *)
Lemma passes_converge fs1 l3 fs2 l4 :
  additive_pass self (iter S) fs0 = (fs1, l3) -> no_errors l3 = true ->
  subtractive_pass self S (iter (snapshot fs0 r)) fs1 = (fs2, l4) ->
  no_errors l4 = true ->
  converged self fs2.
Proof.
  intros A Hl3 B Hl4.
  destruct (additive_pass_eff (iter S) fs0 fs1 l3 Inv0
              (fun p Hp => Permutation_in p (iter_perm S) Hp) A Hl3)
    as (HI1 & _ & Hm1).
  pose proof HI1 as (Hs1 & Hwf1 & E01).
  destruct (subtractive_pass_eff (iter (snapshot fs0 r)) fs1 fs2 l4 Hs1 Hwf1
              (fun q Hq => snapshot_not_root fs0 r q
                             (Permutation_in q (iter_perm _) Hq)) B Hl4)
    as (Hs2 & Hwf2 & E2 & Hgone).
  assert (F1 : forall p, In p S -> Matched fs2 p).
  { intros p Hp. unfold Matched.
    destruct (E2 p) as [E|(_ & _ & Hn)]; [|contradiction].
    rewrite E. apply Hm1.
    apply (Permutation_in p (Permutation_sym (iter_perm S)) Hp). }
  assert (F2 : forall q, q <> [] -> ~ In q S -> stat fs2 (r ++ q) = None).
  { intros q Hq Hn. destruct (stat fs0 (r ++ q)) as [e|] eqn:E0.
    - apply Hgone; [|assumption].
      apply (Permutation_in q (Permutation_sym (iter_perm _))).
      apply (snapshot_iff fs0 r q Hwf0). split; [assumption|].
      split; [congruence|]. intros q1 q2 -> Hq2.
      rewrite app_assoc in E0.
      destruct (stat_above_dir _ _ _ _ E0 Hq2) as [k Hk].
      rewrite Hk, (Hlist0 q1 k Hk). reflexivity.
    - apply (Eff2_none _ _ _ E2). destruct (E01 q) as [E|(_ & Hin & _)];
        [congruence | contradiction]. }
  assert (F3 : is_dir fs2 r = true).
  { destruct (E2 []) as [E|(_ & Hq & _)]; [|congruence].
    rewrite app_nil_r in E. apply is_dir_stat. rewrite E.
    apply is_dir_stat. apply (Inv_root fs1 HI1). }
  assert (F4 : forall q k, stat fs2 (r ++ q) = Some (EDir k) -> k = true).
  { intros q k Hk. destruct (E2 q) as [E|(E & _)]; [|congruence].
    rewrite E in Hk. apply (Inv_listable fs1 q k HI1 Hk). }
  assert (ES : snapshot fs2 s = S).
  { unfold S, snapshot. rewrite (get_directory_structure_ext fs0 fs2 s Hs2).
    reflexivity. }
  unfold converged. fold s r. rewrite ES.
  split; [assumption|]. split.
  - intros p. split.
    + intros Hp. apply (snapshot_iff fs2 r p Hwf2).
      split; [apply (S_nonempty p Hp)|]. split.
      * intros Hn. pose proof (F1 p Hp) as M. unfold Matched in M.
        rewrite Hn in M. apply (matches_none _ M).
      * intros q1 q2 -> Hq2. destruct q1 as [|c q1].
        -- rewrite app_nil_r. apply is_dir_stat in F3. destruct F3 as [k Hk].
           pose proof (F4 [] k) as F. rewrite app_nil_r in F.
           rewrite Hk, (F Hk). reflexivity.
        -- assert (Hin : In (c :: q1) S)
             by (apply (S_prefix_in (c :: q1) q2 Hp); discriminate).
           pose proof (F1 _ Hin) as M. unfold Matched in M.
           rewrite (S_prefix_dir (c :: q1) q2 Hp Hq2) in M.
           apply (matches_dir _ _ M).
    + intros Hp. apply (snapshot_iff fs2 r p Hwf2) in Hp.
      destruct Hp as (Hne & Hex & _).
      destruct (in_dec path_eq_dec p S) as [Hin|Hn]; [assumption|].
      destruct (Hex (F2 p Hne Hn)).
  - intros p Hp. rewrite (stat_app fs2 s p), Hs2, <- (stat_app fs0 s p).
    apply matches_same_entry. apply (F1 p Hp).
Qed.

End Convergence.

Lemma all_listable_Dir l es :
  all_listable (Dir l es) = true <->
  l = true /\ forall c m, In (c, m) es -> all_listable m = true.
Proof.
  cbn [all_listable]. rewrite andb_true_iff. apply and_iff_compat_l.
  induction es as [|[c0 n0] es IH].
  - split; [intros _ c m [] | reflexivity].
  - rewrite andb_true_iff, IH. split.
    + intros [H1 H2] c m [E|Hin]; [congruence | eauto].
    + intros H; split; [apply (H c0); left; reflexivity|].
      intros c m Hin; apply (H c); right; assumption.
Qed.

Lemma all_listable_lookup q : forall n l es,
  all_listable n = true -> lookup n q = Some (Dir l es) -> l = true.
Proof.
  induction q as [|c q IH]; intros n l es Hn H; simpl in H.
  - injection H as ->. apply all_listable_Dir in Hn. apply Hn.
  - destruct n as [r0 m0 d0|k ks]; [discriminate|].
    destruct (get c ks) as [m|] eqn:G; [|discriminate].
    apply all_listable_Dir in Hn. destruct Hn as [_ Hn].
    apply (IH m l es); [|assumption]. apply (Hn c). apply get_In; assumption.
Qed.

(** A replica all of whose directories can be listed. *)
Lemma all_listable_stat fs top n :
  lookup fs top = Some n -> all_listable n = true ->
  forall q l, stat fs (top ++ q) = Some (EDir l) -> l = true.
Proof.
  intros Hn Ha q l H. rewrite stat_app, Hn in H. unfold stat in H.
  destruct (lookup n q) as [[r0 m0 d0|k ks]|] eqn:L; try discriminate.
  injection H as <-. apply (all_listable_lookup q n k ks Ha L).
Qed.

Section Convergence_theorem.

Context `{P : Platform}.


End Convergence_theorem.

(** * The contract on the sample filesystems *)

Open Scope string_scope.
Open Scope list_scope.

Example synchronize_typical :
  @synchronize sample_platform side_by_side fs_typical =
  Done (fs_typical_synced, log_typical).
Proof. vm_compute. reflexivity. Qed.

Example snapshot_typical_synced :
  snapshot fs_typical_synced src = [["docs"]; ["x.txt"]; ["docs"; "report.pdf"]] /\
  snapshot fs_typical_synced rep = [["docs"]; ["x.txt"]; ["docs"; "report.pdf"]].
Proof. split; vm_compute; reflexivity. Qed.

Lemma converged_typical_synced : converged side_by_side fs_typical_synced.
Proof.
  destruct snapshot_typical_synced as [Es Er].
  unfold converged. change (source_path side_by_side) with src.
  change (replica_path side_by_side) with rep. rewrite Es, Er.
  split; [reflexivity|]. split; [intros p; reflexivity|].
  intros p [<-|[<-|[<-|[]]]]; vm_compute; auto.
Defined.

(** C1 on a replica with content and no source. *)
Lemma synchronize_missing_source_witness :
  exists_ fs_no_source src = false /\
  @synchronize sample_platform side_by_side fs_no_source =
  Done (fs_no_source,
        [(INFO, Starting_synchronization src rep);
         (ERROR, Source_folder_does_not_exist src)]).
Proof.
  split; [reflexivity|].
  apply (@synchronize_missing_source sample_platform side_by_side fs_no_source).
  reflexivity.
Defined.



(** C4 on [fs_typical]: the second pass. *)
Lemma synchronize_idempotent_witness :
  exists log2,
    @synchronize sample_platform side_by_side fs_typical_synced =
    Done (fs_typical_synced, log2) /\
    no_mutations log2 = true.
Proof.
  apply (@synchronize_idempotent sample_platform side_by_side fs_typical
           fs_typical_synced log_typical).
  - vm_compute. reflexivity.
  - exact converged_typical_synced.
Defined.











(** C10 on a pass with an empty source tree. *)
Lemma replica_root_survives_witness :
  @synchronize sample_platform side_by_side fs_empty_source =
  Done (fs_empty_source_synced,
        [(INFO, Starting_synchronization src rep);
         (INFO, REMOVED_DIRECTORY ["data"; "replica"; "b"]);
         (INFO, REMOVED_FILE ["data"; "replica"; "a.txt"]);
         (INFO, Synchronization_completed)]) /\
  is_dir fs_empty_source_synced rep = true.
Proof.
  assert (E : @synchronize sample_platform side_by_side fs_empty_source =
    Done (fs_empty_source_synced,
          [(INFO, Starting_synchronization src rep);
           (INFO, REMOVED_DIRECTORY ["data"; "replica"; "b"]);
           (INFO, REMOVED_FILE ["data"; "replica"; "a.txt"]);
           (INFO, Synchronization_completed)]))
    by (vm_compute; reflexivity).
  split; [exact E|].
  apply (proj1 (proj2 (proj2 (@replica_root_survives sample_platform side_by_side
                                fs_empty_source))) _ _ E).
  reflexivity.
Defined.

Close Scope string_scope.

(** * Further properties of the methods *)

Lemma lookup_file_stat fs p r m d :
  stat fs p = Some (EFile r m d) <-> lookup fs p = Some (File r m d).
Proof.
  unfold stat. destruct (lookup fs p) as [[r0 m0 d0|l es]|]; simpl; split;
    intros H; try discriminate; injection H as -> -> ->; reflexivity.
Qed.




Section Methods_extra.

Context `{P : Platform}.

(** X1. [calculate_file_hash] returns the empty string exactly when the
    file cannot be opened for reading, and writes an error record exactly
    then; for a file that can be read it returns the digest of all its
    bytes, whatever the number of chunks they are read in. *)
Theorem calculate_file_hash_sentinel (fs : node) (file_path : path) :
  (fst (calculate_file_hash fs file_path) = EmptyString <->
   open_rb fs file_path = None) /\
  (snd (calculate_file_hash fs file_path) = [] <->
   open_rb fs file_path <> None) /\
  (forall d, open_rb fs file_path = Some d ->
             calculate_file_hash fs file_path = (digest d, [])).
Proof.
  unfold calculate_file_hash. destruct (open_rb fs file_path) as [d|].
  - rewrite read_chunks_spec by apply Nat.lt_succ_diag_r. cbn [fst snd].
    split; [|split].
    + split; [|discriminate]. intros E. destruct (hexdigest_nonempty _ E).
    + split; [discriminate | reflexivity].
    + intros d' E. injection E as <-. reflexivity.
  - cbn [fst snd]. split; [|split].
    + split; reflexivity.
    + split; [discriminate | congruence].
    + discriminate.
Qed.

(** X2. The verdict of [files_are_identical] does not depend on the order
    of its two arguments. *)
Theorem files_are_identical_symmetric (fs : node) (a b : path) :
  fst (files_are_identical fs a b) = fst (files_are_identical fs b a).
Proof.
  unfold files_are_identical.
  rewrite (Nat.eqb_sym (st_size fs b) (st_size fs a)).
  destruct (exists_ fs a), (exists_ fs b); cbn [andb negb]; try reflexivity.
  destruct (negb (st_size fs a =? st_size fs b)); [reflexivity|].
  destruct (calculate_file_hash fs a) as [h1 l1].
  destruct (calculate_file_hash fs b) as [h2 l2].
  cbn [fst]. apply String.eqb_sym.
Qed.

End Methods_extra.


(** X4. After a [create_directory] that logged [CREATED DIRECTORY] the path
    and all its ancestors are directories and every entry that existed has
    the [stat] it had; calling it again changes nothing and logs the same
    record again. *)
Theorem create_directory_effect (fs fs' : node) (dir_path : path) :
  create_directory fs dir_path = (fs', [(INFO, CREATED_DIRECTORY dir_path)]) ->
  (forall q, is_prefix q dir_path = true -> is_dir fs' q = true) /\
  (forall q e, stat fs q = Some e -> stat fs' q = Some e) /\
  create_directory fs' dir_path = (fs', [(INFO, CREATED_DIRECTORY dir_path)]).
Proof.
  intros H. destruct (create_directory_cases _ _ _ _ H) as [[M _]|[_ E]];
    [|discriminate E].
  split; [|split].
  - intros q Hq. apply is_dir_stat.
    destruct (mkdir_parents_stat_on_path _ _ _ _ M Hq) as (l & Hl & _). eauto.
  - intros q e He. destruct (mkdir_parents_stat _ _ _ q M) as [E|(_ & E & _)];
      congruence.
  - unfold create_directory.
    rewrite (mkdir_parents_id _ _ (mkdir_parents_is_dir _ _ _ M)). reflexivity.
Qed.

Section Copy_extra.

Context `{P : Platform}.

(** X5. After a [copy_file] that logged [COPIED] onto a destination that was
    not a directory, the destination holds the bytes and the modification
    time of the source, the source is as it was, and [files_are_identical]
    finds the two identical without an error. *)
Theorem copy_file_then_identical (fs fs' : node) (source_file replica_file : path) :
  copy_file fs source_file replica_file =
    (fs', [(INFO, COPIED source_file replica_file)]) ->
  is_dir fs replica_file = false ->
  exists m d,
    lookup fs source_file = Some (File true m d) /\
    lookup fs' source_file = Some (File true m d) /\
    lookup fs' replica_file = Some (File true m d) /\
    files_are_identical fs' source_file replica_file = (true, []).
Proof.
  intros H Hd.
  destruct (copy_file_cases _ _ _ _ _ H) as [(fs1 & M & C & _)|(E & _)];
    [|discriminate E].
  assert (Hne : replica_file <> []).
  { intros ->. simpl in M. unfold is_dir in Hd. simpl in Hd.
    destruct fs; [discriminate M | discriminate Hd]. }
  assert (Hnp : is_prefix replica_file (removelast replica_file) = false).
  { destruct (is_prefix replica_file (removelast replica_file)) eqn:F; [|reflexivity].
    destruct (removelast_neq replica_file Hne).
    apply is_prefix_antisym; [apply is_prefix_removelast | assumption]. }
  assert (Hd1 : is_dir fs1 replica_file = false).
  { unfold is_dir in *. rewrite (mkdir_parents_lookup_frame _ _ _ _ M Hnp). assumption. }
  destruct (copy2_inv _ _ _ _ C) as (m & d & dstf & Ed & Ls & Hsd & _ & St).
  rewrite Hd1 in Ed. subst dstf.
  assert (Hat : lookup fs' replica_file = Some (File true m d))
    by apply (store_lookup_at _ _ _ _ St).
  assert (Ls' : lookup fs' source_file = Some (File true m d)).
  { rewrite <- Ls. apply (store_file_lookup_frame _ _ _ _ _ _ _ St Hd1).
    destruct (is_prefix source_file replica_file) eqn:F; [|reflexivity]. exfalso.
    apply is_prefix_split in F. destruct F as [x ->].
    assert (Hx : x <> []) by (intros ->; apply Hsd; symmetry; apply app_nil_r).
    destruct (lookup_above_dir _ _ _ _ Hat Hx) as (l & es & Hl).
    assert (Hs : stat fs' source_file = stat fs1 source_file).
    { apply (store_stat_above _ _ _ _ _ St (is_prefix_app _ _)).
      intros E. apply Hx. rewrite <- (app_nil_r source_file) in E at 1.
      apply app_inv_head in E. congruence. }
    unfold stat in Hs. rewrite Hl, Ls in Hs. discriminate Hs. }
  assert (Ls0 : lookup fs source_file = Some (File true m d)).
  { rewrite <- Ls. symmetry. apply (mkdir_parents_lookup_frame _ _ _ _ M).
    destruct (is_prefix source_file (removelast replica_file)) eqn:F; [|reflexivity].
    exfalso. destruct (mkdir_parents_stat_on_path _ _ _ _ M F) as (l & Hl & _).
    unfold stat in Hl. rewrite Ls in Hl. discriminate Hl. }
  exists m, d. repeat split; try assumption.
  rewrite (files_are_identical_readable _ _ _ _ _ _ _ Ls' Hat).
  rewrite Nat.eqb_refl, String.eqb_refl. reflexivity.
Qed.

End Copy_extra.

(** X6. A source that cannot be opened for reading is never copied:
    [copy_file] logs one error record, the destination is what it was, and
    every entry that existed has the [stat] it had (the parents of the
    destination may have been created). *)
Theorem copy_file_keeps_destination (fs : node) (source_file replica_file : path) :
  open_rb fs source_file = None ->
  exists fs',
    copy_file fs source_file replica_file =
      (fs', [(ERROR, Error_copying source_file replica_file)]) /\
    lookup fs' replica_file = lookup fs replica_file /\
    forall q e, stat fs q = Some e -> stat fs' q = Some e.
Proof.
  intros Ho. unfold copy_file.
  destruct (mkdir_parents fs (removelast replica_file)) as [fs1|] eqn:M.
  2:{ exists fs. repeat split; auto. }
  assert (Hstat : forall q e, stat fs q = Some e -> stat fs1 q = Some e).
  { intros q e He. destruct (mkdir_parents_stat _ _ _ q M) as [E|(_ & E & _)];
      congruence. }
  assert (Ho1 : open_rb fs1 source_file = None).
  { unfold open_rb in *.
    destruct (mkdir_parents_stat _ _ _ source_file M) as [E|(_ & _ & E)].
    - unfold stat in E.
      destruct (lookup fs1 source_file) as [[[|] ? ?|? ?]|];
        destruct (lookup fs source_file) as [[[|] ? ?|? ?]|];
        try discriminate; reflexivity.
    - unfold stat in E.
      destruct (lookup fs1 source_file) as [[[|] ? ?|? ?]|]; try discriminate;
        reflexivity. }
  assert (C : copy2 fs1 source_file replica_file = None).
  { unfold copy2. destruct (path_eq_dec source_file _); [reflexivity|].
    unfold open_rb in Ho1.
    destruct (lookup fs1 source_file) as [[[|] ? ?|? ?]|]; try discriminate;
      reflexivity. }
  rewrite C. exists fs1. split; [reflexivity|]. split; [|assumption].
  destruct (list_eq_dec string_dec replica_file []) as [->|Hne].
  - simpl in M. destruct fs; [discriminate M|]. injection M as <-. reflexivity.
  - apply (mkdir_parents_lookup_frame _ _ _ _ M).
    destruct (is_prefix replica_file (removelast replica_file)) eqn:F; [|reflexivity].
    destruct (removelast_neq replica_file Hne).
    apply is_prefix_antisym; [apply is_prefix_removelast | assumption].
Qed.

(** X7. After a [remove_path] that logged no error the path does not
    exist, and a second [remove_path] on it changes nothing and logs
    nothing. *)
Theorem remove_path_twice (fs fs' : node) (p : path) (l : list record) :
  remove_path fs p = (fs', l) -> no_errors l = true ->
  exists_ fs' p = false /\ remove_path fs' p = (fs', []).
Proof.
  intros H Hl. pose proof (remove_path_gone _ _ _ _ [] H Hl) as G.
  rewrite app_nil_r in G. unfold exists_, remove_path, is_file, is_dir.
  rewrite G. split; reflexivity.
Qed.

(** * Further properties of a pass *)

Lemma copy_file_keeps_kind fs a b fs' l q e :
  copy_file fs a b = (fs', l) -> stat fs q = Some e ->
  exists e', stat fs' q = Some e' /\ is_edir e' = is_edir e.
Proof.
  intros H He.
  assert (Hm : forall fs1, mkdir_parents fs (removelast b) = Some fs1 ->
                           stat fs1 q = Some e).
  { intros fs1 M. destruct (mkdir_parents_stat _ _ _ q M) as [E|(_ & E & _)];
      congruence. }
  destruct (copy_file_cases _ _ _ _ _ H) as [(fs1 & M & C & _)|(_ & [->|M])].
  - specialize (Hm fs1 M).
    destruct (copy2_inv _ _ _ _ C) as (m & d & dstf & _ & _ & _ & Hd & St).
    destruct (is_prefix dstf q) eqn:F.
    + apply is_prefix_split in F. destruct F as [x ->]. destruct x as [|c x].
      * rewrite app_nil_r in *. exists (EFile true m d). split.
        -- unfold stat. rewrite (store_lookup_at _ _ _ _ St). reflexivity.
        -- unfold is_dir in Hd. unfold stat in Hm.
           destruct (lookup fs1 dstf) as [[? ? ?|? ?]|]; try discriminate.
           injection Hm as <-. reflexivity.
      * exfalso. destruct (stat_above_dir _ _ _ _ Hm) as [k Hk]; [discriminate|].
        assert (is_dir fs1 dstf = true) by (apply is_dir_stat; eauto).
        congruence.
    + exists e. split; [|reflexivity].
      rewrite (store_stat_frame _ _ _ _ _ St F). assumption.
  - eauto.
  - eauto.
Qed.

Section Pass_extra.

Context `{P : Platform}.
Variable self : FolderSynchronizer.

Let s := source_path self.
Let r := replica_path self.

(** X8. A replica file with the bytes of its source file, both readable, is
    left alone by the first loop whatever the two modification times are:
    no change and no log record. *)
Theorem process_source_item_skips_identical (fs : node) (rel_path : path)
    (m1 m2 : Z) (d : list byte) :
  lookup fs (source_path self ++ rel_path) = Some (File true m1 d) ->
  lookup fs (replica_path self ++ rel_path) = Some (File true m2 d) ->
  process_source_item self fs rel_path = (fs, []).
Proof.
  intros Hs Hr. unfold process_source_item, is_dir, exists_.
  rewrite Hs, Hr. cbn [negb].
  rewrite (files_are_identical_readable _ _ _ _ _ _ _ Hs Hr).
  rewrite Nat.eqb_refl, String.eqb_refl. reflexivity.
Qed.




(** A call that returned is followed by calls that return. *)
Lemma synchronize_done_stays fs fs' l :
  synchronize self fs = Done (fs', l) ->
  exists fs'' l', synchronize self fs' = Done (fs'', l').
Proof.
  intros H.
  destruct (synchronize_cases self fs) as
    [[Hs E]|[(Hs & M & E)|(Hs & fs0 & fs1 & l3 & fs2 & l4 & M & _ & _ & E)]].
  - rewrite E in H. injection H as <- _. rewrite E. eauto.
  - rewrite E in H. discriminate H.
  - pose proof (synchronize_replica_root self fs fs' l H Hs) as Hr.
    destruct (synchronize_cases self fs') as
      [[_ E']|[(_ & M' & _)|(_ & ? & ? & ? & ? & ? & _ & _ & _ & E')]].
    + rewrite E'. eauto.
    + rewrite (mkdir_parents_id _ _ Hr) in M'. discriminate M'.
    + rewrite E'. eauto.
Qed.

Lemma repeat_synchronize_done n : forall fs fs' l,
  synchronize self fs = Done (fs', l) ->
  exists fs'' l', synchronize self (repeat_synchronize self n fs') = Done (fs'', l').
Proof.
  induction n as [|k IH]; intros fs fs' l H.
  - apply (synchronize_done_stays fs fs' l H).
  - cbn [repeat_synchronize].
    destruct (synchronize_done_stays fs fs' l H) as (fs1 & l1 & H1).
    rewrite H1. apply (IH fs' fs1 l1 H1).
Qed.

(** X12. [synchronize] raises in the first call or never: once a call has
    returned, every later call returns as well, however many there are. *)
Theorem synchronize_raises_first_or_never (fs fs' : node) (l : list record) (n : nat) :
  synchronize self fs = Done (fs', l) ->
  exists fs'' l',
    synchronize self (repeat_synchronize self n fs') = Done (fs'', l').
Proof. apply repeat_synchronize_done. Qed.

(** X13. The first loop removes nothing and never turns a file into a
    directory or a directory into a file: every entry that existed before
    the loop exists after it with the same kind. *)
Theorem additive_pass_keeps_entries (items : list path) (fs fs' : node)
    (l : list record) (q : path) (e : entry) :
  additive_pass self items fs = (fs', l) ->
  stat fs q = Some e ->
  exists e', stat fs' q = Some e' /\ is_edir e' = is_edir e.
Proof.
  revert fs fs' l e. induction items as [|p items IH]; intros fs fs' l e H He;
    cbn [additive_pass] in H.
  - injection H as <- _. eauto.
  - destruct (process_source_item self fs p) as [fs1 l1] eqn:E1.
    destruct (additive_pass self items fs1) as [fs2 l2] eqn:E2.
    injection H as <- _.
    assert (H1 : exists e1, stat fs1 q = Some e1 /\ is_edir e1 = is_edir e).
    { unfold process_source_item in E1.
      destruct (is_dir fs _).
      - destruct (negb _).
        + destruct (create_directory_cases _ _ _ _ E1) as [[M _]|[-> _]]; [|eauto].
          exists e. split; [|reflexivity].
          destruct (mkdir_parents_stat _ _ _ q M) as [E|(_ & E & _)]; congruence.
        + injection E1 as <- _. eauto.
      - destruct (negb _).
        + apply (copy_file_keeps_kind _ _ _ _ _ _ _ E1 He).
        + destruct (files_are_identical fs _ _) as [[|] l0]; cbn [negb] in E1.
          * injection E1 as <- _. eauto.
          * destruct (copy_file fs _ _) as [fs3 l3] eqn:C. injection E1 as <- _.
            apply (copy_file_keeps_kind _ _ _ _ _ _ _ C He). }
    destruct H1 as (e1 & He1 & K1).
    destruct (IH _ _ _ _ E2 He1) as (e2 & He2 & K2).
    exists e2. split; [assumption | congruence].
Qed.

(** X14. The second loop changes nothing but what lies at or below the
    replica paths whose relative path the source structure lacks: every
    other path has the [stat] it had. *)
Theorem subtractive_pass_frame (source_structure items : list path)
    (fs fs' : node) (l : list record) (q : path) :
  subtractive_pass self source_structure items fs = (fs', l) ->
  (forall rel_path, In rel_path items -> ~ In rel_path source_structure ->
                    is_prefix (replica_path self ++ rel_path) q = false) ->
  stat fs' q = stat fs q.
Proof.
  revert fs fs' l. induction items as [|p items IH]; intros fs fs' l H Hq;
    cbn [subtractive_pass] in H.
  - injection H as <- _. reflexivity.
  - destruct (process_replica_item self source_structure fs p) as [fs1 l1] eqn:E1.
    destruct (subtractive_pass self source_structure items fs1) as [fs2 l2] eqn:E2.
    injection H as <- _.
    rewrite (IH _ _ _ E2 (fun x Hx => Hq x (or_intror Hx))).
    unfold process_replica_item in E1.
    destruct (set_mem path_eq_dec p source_structure) eqn:Hm.
    + injection E1 as <- _. reflexivity.
    + apply (remove_path_stat_frame _ _ _ _ _ E1).
      apply (Hq p (or_introl eq_refl)).
      apply (set_mem_complete1 path_eq_dec). assumption.
Qed.

End Pass_extra.


Section Outside.

Context `{P : Platform}.
Variable self : FolderSynchronizer.






End Outside.

(** * Properties of the driver *)





Section Driver.

Context `{P : Platform}.
Variable self : FolderSynchronizer.
Variables interval amount : Z.




End Driver.

(** * What the log tells *)

Lemma for_invariant {A S : Type} (I : S -> Prop) (l : list A)
    (body : A -> S -> outcome S) :
  (forall a s, I s -> match body a s with Done s' | Raised s' => I s' end) ->
  forall s, I s -> match for_ l body s with Done s' | Raised s' => I s' end.
Proof.
  intros Hb. induction l as [|a l IH]; intros s Hs; cbn [for_]; [assumption|].
  specialize (Hb a s Hs). destruct (body a s) as [s'|s']; [apply IH|]; assumption.
Qed.

Lemma add_relative_NoDup path_ root_path name structure :
  NoDup structure ->
  match add_relative path_ root_path name structure with
  | Done s' | Raised s' => NoDup s'
  end.
Proof.
  intros H. unfold add_relative.
  destruct (relative_to (root_path ++ [name]) path_); [|assumption].
  apply set_add_nodup. assumption.
Qed.

Lemma add_listing_NoDup path_ triple structure :
  NoDup structure ->
  match add_listing path_ triple structure with
  | Done s' | Raised s' => NoDup s'
  end.
Proof.
  intros H. destruct triple as [[root_path dirs] files]. unfold add_listing.
  pose proof (for_invariant (@NoDup path) dirs (add_relative path_ root_path)
                (add_relative_NoDup path_ root_path) structure H) as H1.
  destruct (for_ dirs (add_relative path_ root_path) structure) as [s1|s1];
    [|assumption].
  apply (for_invariant (@NoDup path) files (add_relative path_ root_path)
           (add_relative_NoDup path_ root_path) s1 H1).
Qed.

Section Silent.

Context `{P : Platform}.
Variable self : FolderSynchronizer.

(** X18. The structure [get_directory_structure] returns is a set: no
    relative path occurs in it twice, so that each loop of [synchronize]
    meets every relative path once, in whatever order the set is
    iterated. *)
Theorem get_directory_structure_no_duplicates (fs : node) (path_ : path) :
  NoDup (fst (get_directory_structure fs path_)) /\
  NoDup (iter (fst (get_directory_structure fs path_))).
Proof.
  assert (H : NoDup (fst (get_directory_structure fs path_))).
  { unfold get_directory_structure. destruct (negb (exists_ fs path_)).
    - constructor.
    - pose proof (for_invariant (@NoDup path) (os_walk fs path_) (add_listing path_)
                    (add_listing_NoDup path_) [] (NoDup_nil path)) as H.
      destruct (for_ (os_walk fs path_) (add_listing path_) []); assumption. }
  split; [assumption|].
  apply (Permutation_NoDup (Permutation_sym (iter_perm _)) H).
Qed.

Lemma create_directory_silent fs p fs' l :
  create_directory fs p = (fs', l) ->
  no_mutations l = true -> no_errors l = true -> fs' = fs.
Proof.
  intros H Hm He.
  destruct (create_directory_cases _ _ _ _ H) as [[_ ->]|[-> _]];
    [discriminate Hm | reflexivity].
Qed.

Lemma copy_file_silent fs a b fs' l :
  copy_file fs a b = (fs', l) ->
  no_mutations l = true -> no_errors l = true -> fs' = fs.
Proof.
  intros H Hm He.
  destruct (copy_file_cases _ _ _ _ _ H) as [(fs1 & _ & _ & ->)|(-> & _)];
    [discriminate Hm | discriminate He].
Qed.

Lemma remove_path_silent fs p fs' l :
  remove_path fs p = (fs', l) ->
  no_mutations l = true -> no_errors l = true -> fs' = fs.
Proof.
  intros H Hm He.
  destruct (remove_path_cases _ _ _ _ H)
    as [[-> _]|(o & _ & [(_ & [->| ->])| ->])];
    [reflexivity | discriminate Hm | discriminate Hm | discriminate He].
Qed.

Lemma process_source_item_silent fs p fs' l :
  process_source_item self fs p = (fs', l) ->
  no_mutations l = true -> no_errors l = true -> fs' = fs.
Proof.
  unfold process_source_item. intros H Hm He.
  destruct (is_dir fs _).
  - destruct (negb _).
    + apply (create_directory_silent _ _ _ _ H Hm He).
    + injection H as <- _. reflexivity.
  - destruct (negb _).
    + apply (copy_file_silent _ _ _ _ _ H Hm He).
    + destruct (files_are_identical fs _ _) as [[|] l0]; cbn [negb] in H.
      * injection H as <- _. reflexivity.
      * destruct (copy_file fs _ _) as [fs3 l3] eqn:C. injection H as <- <-.
        rewrite no_mutations_app in Hm. rewrite no_errors_app in He.
        apply andb_true_iff in Hm, He.
        apply (copy_file_silent _ _ _ _ _ C (proj2 Hm) (proj2 He)).
Qed.

Lemma additive_pass_silent items : forall fs fs' l,
  additive_pass self items fs = (fs', l) ->
  no_mutations l = true -> no_errors l = true -> fs' = fs.
Proof.
  induction items as [|p items IH]; intros fs fs' l H Hm He;
    cbn [additive_pass] in H.
  - injection H as <- _. reflexivity.
  - destruct (process_source_item self fs p) as [fs1 l1] eqn:E1.
    destruct (additive_pass self items fs1) as [fs2 l2] eqn:E2.
    injection H as <- <-.
    rewrite no_mutations_app in Hm. rewrite no_errors_app in He.
    apply andb_true_iff in Hm, He.
    rewrite (IH _ _ _ E2 (proj2 Hm) (proj2 He)).
    apply (process_source_item_silent _ _ _ _ E1 (proj1 Hm) (proj1 He)).
Qed.

Lemma subtractive_pass_silent S items : forall fs fs' l,
  subtractive_pass self S items fs = (fs', l) ->
  no_mutations l = true -> no_errors l = true -> fs' = fs.
Proof.
  induction items as [|p items IH]; intros fs fs' l H Hm He;
    cbn [subtractive_pass] in H.
  - injection H as <- _. reflexivity.
  - destruct (process_replica_item self S fs p) as [fs1 l1] eqn:E1.
    destruct (subtractive_pass self S items fs1) as [fs2 l2] eqn:E2.
    injection H as <- <-.
    rewrite no_mutations_app in Hm. rewrite no_errors_app in He.
    apply andb_true_iff in Hm, He.
    rewrite (IH _ _ _ E2 (proj2 Hm) (proj2 He)).
    unfold process_replica_item in E1. destruct (set_mem path_eq_dec p S).
    + injection E1 as <- _. reflexivity.
    + apply (remove_path_silent _ _ _ _ E1 (proj1 Hm) (proj1 He)).
Qed.

(** X19. The log reports every change but one. When a call of
    [synchronize] returns with a log that holds neither an error record nor
    a [COPIED], [CREATED DIRECTORY], [REMOVED FILE] or [REMOVED DIRECTORY]
    record, the filesystem is what [replica_path.mkdir(parents=True,
    exist_ok=True)] made of it, a call for which there is no log record; it
    is unchanged altogether when the replica root was a directory. *)
Theorem synchronize_silent (fs fs' : node) (log : list record) :
  synchronize self fs = Done (fs', log) ->
  no_mutations log = true -> no_errors log = true ->
  mkdir_parents fs (replica_path self) = Some fs' /\
  (is_dir fs (replica_path self) = true -> fs' = fs).
Proof.
  intros H Hm He.
  assert (M : mkdir_parents fs (replica_path self) = Some fs').
  { destruct (synchronize_cases self fs) as
      [[_ E]|[(_ & _ & E)|(_ & fs0 & fs1 & l3 & fs2 & l4 & M & A & B & E)]];
      rewrite E in H.
    - injection H as _ <-. discriminate He.
    - discriminate H.
    - injection H as <- <-.
      change (no_mutations ([start_record self] ++ l3 ++ l4 ++
                [(INFO, Synchronization_completed)]) = true) in Hm.
      change (no_errors ([start_record self] ++ l3 ++ l4 ++
                [(INFO, Synchronization_completed)]) = true) in He.
      rewrite !no_mutations_app, !andb_true_iff in Hm.
      rewrite !no_errors_app, !andb_true_iff in He.
      destruct Hm as (_ & Hm3 & Hm4 & _). destruct He as (_ & He3 & He4 & _).
      rewrite (subtractive_pass_silent _ _ _ _ _ B Hm4 He4).
      rewrite (additive_pass_silent _ _ _ _ A Hm3 He3). assumption. }
  split; [assumption|]. intros Hd.
  rewrite (mkdir_parents_id _ _ Hd) in M. injection M as <-. reflexivity.
Qed.

End Silent.

(** * A pass that succeeds *)



Section Progress.

Context `{P : Platform}.
Variable self : FolderSynchronizer.

Local Abbreviation s := (source_path self).
Local Abbreviation r := (replica_path self).

(** The filesystem the two loops start from. *)
Variable fs0 : node.

Local Abbreviation S := (snapshot fs0 s).

Hypothesis Hdisj1 : is_prefix s r = false.
Hypothesis Hdisj2 : is_prefix r s = false.
Hypothesis Hwf0 : wf fs0 = true.
Hypothesis Hroot0 : is_dir fs0 r = true.
Hypothesis Hlist0 : forall q l, stat fs0 (r ++ q) = Some (EDir l) -> l = true.
Hypothesis Hkind0 : forall q a b,
  In q S -> stat fs0 (s ++ q) = Some a -> stat fs0 (r ++ q) = Some b ->
  is_edir a = is_edir b.
Hypothesis Hcoll0 : forall q r1 m1 d1 r2 m2 d2,
  In q S ->
  stat fs0 (s ++ q) = Some (EFile r1 m1 d1) ->
  stat fs0 (r ++ q) = Some (EFile r2 m2 d2) ->
  digest d1 = digest d2 -> d1 = d2.
Hypothesis Hsrc0 : forall q rd m d,
  In q S -> stat fs0 (s ++ q) = Some (EFile rd m d) -> rd = true.
Hypothesis Hrep0 : forall q rd m d,
  In q S -> stat fs0 (r ++ q) = Some (EFile rd m d) -> rd = true.







End Progress.

Section Succeeds.

Context `{P : Platform}.
Variable self : FolderSynchronizer.

Local Abbreviation s := (source_path self).
Local Abbreviation r := (replica_path self).

(** What creating the replica root changes for the two loops: nothing in
    the source and nothing below the replica root. *)
Lemma replica_root_created fs fs0 :
  is_prefix s r = false ->
  mkdir_parents fs r = Some fs0 ->
  snapshot fs0 s = snapshot fs s /\
  (forall q, stat fs0 (s ++ q) = stat fs (s ++ q)) /\
  (forall q, q <> [] -> stat fs0 (r ++ q) = stat fs (r ++ q)) /\
  (forall l, stat fs0 r = Some (EDir l) -> stat fs r = Some (EDir l) \/ l = true).
Proof.
  intros Hd1 M.
  pose proof (mkdir_parents_lookup_frame _ _ _ _ M Hd1) as Hs0.
  split; [|split; [|split]].
  - unfold snapshot. rewrite (get_directory_structure_ext fs fs0 _ Hs0). reflexivity.
  - intros q. rewrite !stat_app, Hs0. reflexivity.
  - intros q Hq. unfold stat.
    rewrite (mkdir_parents_lookup_frame _ _ _ _ M (is_prefix_app_nonempty _ q Hq)).
    reflexivity.
  - intros l Hl. destruct (mkdir_parents_stat _ _ _ r M) as [E|(_ & _ & E)].
    + left. congruence.
    + right. congruence.
Qed.

(** One pass that logs no error leaves a replica that mirrors the source. *)
Lemma pass_converges fs fs' log :
  wf fs = true ->
  is_prefix s r = false ->
  is_prefix r s = false ->
  (forall q l, stat fs (r ++ q) = Some (EDir l) -> l = true) ->
  (forall q a b,
     In q (snapshot fs s) -> stat fs (s ++ q) = Some a -> stat fs (r ++ q) = Some b ->
     is_edir a = is_edir b) ->
  (forall q r1 m1 d1 r2 m2 d2,
     In q (snapshot fs s) ->
     stat fs (s ++ q) = Some (EFile r1 m1 d1) ->
     stat fs (r ++ q) = Some (EFile r2 m2 d2) ->
     digest d1 = digest d2 -> d1 = d2) ->
  synchronize self fs = Done (fs', log) ->
  no_errors log = true ->
  converged self fs'.
Proof.
  intros Hwf Hd1 Hd2 Hlist Hkind Hcoll Hrun Hlog.
  destruct (synchronize_cases self fs) as
    [[_ E]|[(_ & _ & E)|(_ & fs0 & fs1 & l3 & fs2 & l4 & M & A & B & E)]];
    rewrite E in Hrun.
  - injection Hrun as _ <-. discriminate Hlog.
  - discriminate Hrun.
  - injection Hrun as <- <-.
    change (no_errors ([start_record self] ++ l3 ++ l4 ++
                       [(INFO, Synchronization_completed)]) = true) in Hlog.
    rewrite !no_errors_app, !andb_true_iff in Hlog.
    destruct Hlog as (_ & Hl3 & Hl4 & _).
    destruct (replica_root_created fs fs0 Hd1 M) as (Hsnap & Hstat_s & Hstat_r & Hroot).
    apply (passes_converge self fs0 Hd1 Hd2 (wf_mkdir_parents _ _ _ Hwf M)
             (mkdir_parents_is_dir _ _ _ M)) with (fs1 := fs1) (l3 := l3) (l4 := l4);
      try assumption.
    + intros q l Hq. destruct q as [|c q].
      * rewrite app_nil_r in Hq. destruct (Hroot l Hq) as [E0|E0]; [|assumption].
        apply (Hlist [] l). rewrite app_nil_r. assumption.
      * rewrite Hstat_r in Hq by discriminate. apply (Hlist _ l Hq).
    + intros q a b Hin Ha Hb. rewrite Hsnap in Hin. rewrite Hstat_s in Ha.
      rewrite Hstat_r in Hb by (apply (snapshot_not_root _ _ _ Hin)).
      apply (Hkind q a b Hin Ha Hb).
    + intros q r1 m1 d1 r2 m2 d2 Hin Ha Hb. rewrite Hsnap in Hin.
      rewrite Hstat_s in Ha.
      rewrite Hstat_r in Hb by (apply (snapshot_not_root _ _ _ Hin)).
      apply (Hcoll q r1 m1 d1 r2 m2 d2 Hin Ha Hb).
Qed.



(** On a replica that mirrors the source every number of passes changes
    nothing. *)
Lemma repeat_synchronize_converged n : forall fs,
  converged self fs -> repeat_synchronize self n fs = fs.
Proof.
  induction n as [|k IH]; intros fs Hc; cbn [repeat_synchronize]; [reflexivity|].
  destruct (synchronize_converged self fs Hc) as (log & E & _).
  rewrite E. apply (IH fs Hc).
Qed.

(** X21. One pass without an error record reaches a fixed point: for
    separate roots, a replica all of whose directories can be listed, and
    neither a kind mismatch nor a digest collision at the relative paths of
    the source, the next call of [synchronize] returns, leaves
    the filesystem as the first call left it, and logs no [COPIED],
    [CREATED DIRECTORY], [REMOVED FILE] or [REMOVED DIRECTORY] record; and
    however many calls follow, the filesystem stays what the first call made
    of it. *)
Theorem synchronize_second_pass_idle (fs fs' : node) (log : list record) :
  wf fs = true ->
  is_prefix (source_path self) (replica_path self) = false ->
  is_prefix (replica_path self) (source_path self) = false ->
  (forall q l, stat fs (replica_path self ++ q) = Some (EDir l) -> l = true) ->
  (forall q a b,
     In q (snapshot fs (source_path self)) ->
     stat fs (source_path self ++ q) = Some a ->
     stat fs (replica_path self ++ q) = Some b ->
     is_edir a = is_edir b) ->
  (forall q r1 m1 d1 r2 m2 d2,
     In q (snapshot fs (source_path self)) ->
     stat fs (source_path self ++ q) = Some (EFile r1 m1 d1) ->
     stat fs (replica_path self ++ q) = Some (EFile r2 m2 d2) ->
     digest d1 = digest d2 -> d1 = d2) ->
  synchronize self fs = Done (fs', log) ->
  no_errors log = true ->
  (exists log2,
     synchronize self fs' = Done (fs', log2) /\ no_mutations log2 = true) /\
  forall n, repeat_synchronize self n fs' = fs'.
Proof.
  intros Hwf Hd1 Hd2 Hlist Hkind Hcoll Hrun Hlog.
  pose proof (pass_converges fs fs' log Hwf Hd1 Hd2 Hlist Hkind Hcoll Hrun Hlog) as Hc.
  split.
  - apply (synchronize_converged self fs' Hc).
  - intros n. apply (repeat_synchronize_converged n fs' Hc).
Qed.

Lemma snapshot_of_file fs top : is_file fs top = true -> snapshot fs top = [].
Proof.
  intros H. unfold snapshot, get_directory_structure, exists_, os_walk.
  unfold is_file in H. destruct (lookup fs top) as [[rd m d|l es]|]; try discriminate.
  reflexivity.
Qed.

(** X22. A source root that is a file counts as an empty source: the
    existence test of [synchronize] lets it pass, it enumerates to
    nothing, and a pass without an error record, on roots neither of which
    is the other or one of its ancestors and a replica all of whose
    directories can be listed, leaves the replica a directory that
    enumerates to nothing. *)
Theorem synchronize_file_source_empties_replica (fs fs' : node) (log : list record) :
  wf fs = true ->
  is_prefix (source_path self) (replica_path self) = false ->
  is_prefix (replica_path self) (source_path self) = false ->
  is_file fs (source_path self) = true ->
  (forall q l, stat fs (replica_path self ++ q) = Some (EDir l) -> l = true) ->
  synchronize self fs = Done (fs', log) ->
  no_errors log = true ->
  is_dir fs' (replica_path self) = true /\
  snapshot fs' (replica_path self) = [].
Proof.
  intros Hwf Hd1 Hd2 Hf Hlist Hrun Hlog.
  pose proof (snapshot_of_file fs s Hf) as Hs.
  assert (Hc : converged self fs').
  { apply (pass_converges fs fs' log Hwf Hd1 Hd2 Hlist); try assumption.
    - intros q a b Hin. rewrite Hs in Hin. destruct Hin.
    - intros q r1 m1 d1 r2 m2 d2 Hin. rewrite Hs in Hin. destruct Hin. }
  destruct Hc as (Hroot & Hsame & _). split; [assumption|].
  pose proof (synchronize_lookup_frame self fs s Hd1 Hd2) as Hfr.
  rewrite Hrun in Hfr.
  assert (Hs' : snapshot fs' s = []).
  { unfold snapshot. rewrite (get_directory_structure_ext fs fs' s Hfr).
    exact Hs. }
  destruct (snapshot fs' r) as [|p rest] eqn:Er; [reflexivity|].
  exfalso. assert (Hin : In p (snapshot fs' s)) by (apply Hsame; left; reflexivity).
  rewrite Hs' in Hin. destruct Hin.
Qed.

End Succeeds.

(** * Errors that are reported *)

Lemma mkdir_parents_open_rb fs p fs1 a :
  mkdir_parents fs p = Some fs1 -> open_rb fs a = None -> open_rb fs1 a = None.
Proof.
  intros M Ho. unfold open_rb in *.
  destruct (mkdir_parents_stat _ _ _ a M) as [E|(_ & _ & E)]; unfold stat in E.
  - destruct (lookup fs1 a) as [[[|] ? ?|? ?]|];
      destruct (lookup fs a) as [[[|] ? ?|? ?]|]; try discriminate; reflexivity.
  - destruct (lookup fs1 a) as [[[|] ? ?|? ?]|]; try discriminate; reflexivity.
Qed.

Lemma copy_file_unreadable_error fs a b fs' l :
  open_rb fs a = None -> copy_file fs a b = (fs', l) -> no_errors l = false.
Proof.
  intros Ho H.
  destruct (copy_file_cases _ _ _ _ _ H) as [(fs1 & M & C & _)|(-> & _)];
    [|reflexivity].
  exfalso. pose proof (mkdir_parents_open_rb _ _ _ a M Ho) as Ho1.
  destruct (copy2_inv _ _ _ _ C) as (m & d & dstf & _ & Ls & _).
  unfold open_rb in Ho1. rewrite Ls in Ho1. discriminate Ho1.
Qed.

Section Reported.

Context `{P : Platform}.
Variable self : FolderSynchronizer.

Local Abbreviation s := (source_path self).
Local Abbreviation r := (replica_path self).

(** One turn of the first loop on a source file that cannot be read. *)
Lemma process_source_item_unreadable fs p fs' l m d :
  lookup fs (s ++ p) = Some (File false m d) ->
  process_source_item self fs p = (fs', l) -> no_errors l = false.
Proof.
  intros Ls H.
  assert (Ho : open_rb fs (s ++ p) = None) by (unfold open_rb; rewrite Ls; reflexivity).
  unfold process_source_item in H. unfold is_dir at 1 in H. rewrite Ls in H.
  destruct (negb (exists_ fs (r ++ p))).
  - apply (copy_file_unreadable_error _ _ _ _ _ Ho H).
  - destruct (files_are_identical fs (s ++ p) (r ++ p)) as [[|] l0] eqn:Fi;
      cbn [negb] in H.
    + injection H as _ <-. unfold files_are_identical in Fi.
      destruct (negb (exists_ fs (s ++ p) && exists_ fs (r ++ p))); [discriminate Fi|].
      destruct (negb (st_size fs (s ++ p) =? st_size fs (r ++ p))); [discriminate Fi|].
      rewrite (calculate_file_hash_fails fs (s ++ p) Ho) in Fi.
      destruct (calculate_file_hash fs (r ++ p)) as [h2 l2].
      injection Fi as _ <-. reflexivity.
    + destruct (copy_file fs (s ++ p) (r ++ p)) as [fs3 l3] eqn:C.
      injection H as _ <-. rewrite no_errors_app.
      rewrite (copy_file_unreadable_error _ _ _ _ _ Ho C). apply andb_false_r.
Qed.

Lemma additive_pass_unreadable items p m d : forall fs fs' l,
  is_prefix s r = false -> is_prefix r s = false ->
  In p items -> lookup fs (s ++ p) = Some (File false m d) ->
  additive_pass self items fs = (fs', l) -> no_errors l = false.
Proof.
  induction items as [|a items IH]; intros fs fs' l Hd1 Hd2 Hin Ls H;
    [destruct Hin|]. cbn [additive_pass] in H.
  destruct (process_source_item self fs a) as [fs1 l1] eqn:E1.
  destruct (additive_pass self items fs1) as [fs2 l2] eqn:E2.
  injection H as _ <-. rewrite no_errors_app.
  destruct (path_eq_dec a p) as [->|Hne].
  - rewrite (process_source_item_unreadable _ _ _ _ _ _ Ls E1). reflexivity.
  - destruct Hin as [E|Hin]; [contradiction|].
    destruct (unrelated_app r s p Hd2 Hd1) as [U1 U2].
    rewrite (IH fs1 fs2 l2 Hd1 Hd2 Hin); [apply andb_false_r| |exact E2].
    rewrite (process_source_item_lookup_frame self _ _ _ _ _ E1 U2 U1). exact Ls.
Qed.

(** X23. A source file that cannot be read does not pass unnoticed. When
    the source enumerates to a file without read permission, and neither
    root is the other or one of its ancestors, the log of a call of
    [synchronize] that returns holds an error record, whatever the replica
    holds at that path; this includes the pair of unreadable files of the
    same length that [files_are_identical] takes for identical. *)
Theorem synchronize_reports_unreadable_source (fs fs' : node) (log : list record)
    (p : path) (m : Z) (d : list byte) :
  is_prefix (source_path self) (replica_path self) = false ->
  is_prefix (replica_path self) (source_path self) = false ->
  In p (snapshot fs (source_path self)) ->
  lookup fs (source_path self ++ p) = Some (File false m d) ->
  synchronize self fs = Done (fs', log) ->
  no_errors log = false.
Proof.
  intros Hd1 Hd2 Hin Ls H.
  destruct (synchronize_cases self fs) as
    [[_ E]|[(_ & _ & E)|(_ & fs0 & fs1 & l3 & fs2 & l4 & M & A & B & E)]];
    rewrite E in H.
  - injection H as _ <-. reflexivity.
  - discriminate H.
  - injection H as _ <-.
    change (no_errors ([start_record self] ++ l3 ++ l4 ++
                       [(INFO, Synchronization_completed)]) = false).
    destruct (unrelated_app r s p Hd2 Hd1) as [U1 U2].
    assert (Ls0 : lookup fs0 (s ++ p) = Some (File false m d))
      by (rewrite (mkdir_parents_lookup_frame _ _ _ _ M U2); exact Ls).
    assert (Hsnap : snapshot fs0 s = snapshot fs s).
    { unfold snapshot.
      rewrite (get_directory_structure_ext fs fs0 s
                 (mkdir_parents_lookup_frame _ _ _ _ M Hd1)). reflexivity. }
    assert (Hin0 : In p (iter (snapshot fs0 s))).
    { apply (Permutation_in p (Permutation_sym (iter_perm _))).
      rewrite Hsnap. exact Hin. }
    rewrite !no_errors_app.
    rewrite (additive_pass_unreadable _ p m d fs0 fs1 l3 Hd1 Hd2 Hin0 Ls0 A).
    rewrite andb_false_r. reflexivity.
Qed.

End Reported.

(** * A conflict that stays *)

Lemma copy_file_keeps_file fs a b fs' l q rr m d :
  copy_file fs a b = (fs', l) ->
  lookup fs q = Some (File rr m d) ->
  q <> b -> q <> b ++ [basename a] ->
  lookup fs' q = Some (File rr m d).
Proof.
  intros H Lq Hb Hbb. apply lookup_file_stat in Lq. apply lookup_file_stat.
  assert (Hm : forall fs1, mkdir_parents fs (removelast b) = Some fs1 ->
                           stat fs1 q = Some (EFile rr m d)).
  { intros fs1 M. destruct (mkdir_parents_stat _ _ _ q M) as [E|(_ & E & _)];
      congruence. }
  destruct (copy_file_cases _ _ _ _ _ H) as [(fs1 & M & C & _)|(_ & [->|M])];
    [|assumption|auto].
  specialize (Hm fs1 M).
  destruct (copy2_inv _ _ _ _ C) as (m0 & d0 & dstf & Ed & _ & _ & Hd & St).
  assert (Hq : q <> dstf) by (subst dstf; destruct (is_dir fs1 b); assumption).
  rewrite <- Hm. apply (store_stat_frame _ _ _ _ _ St).
  destruct (is_prefix dstf q) eqn:F; [|reflexivity]. exfalso.
  apply is_prefix_split in F. destruct F as [x ->]. destruct x as [|c x].
  - apply Hq. apply app_nil_r.
  - destruct (stat_above_dir _ _ _ _ Hm) as [k Hk]; [discriminate|].
    assert (is_dir fs1 dstf = true) by (apply is_dir_stat; eauto). congruence.
Qed.

Section Conflict.

Context `{P : Platform}.
Variable self : FolderSynchronizer.

Local Abbreviation s := (source_path self).
Local Abbreviation r := (replica_path self).

(** A relative path at which the replica holds a file. *)
Variable p : path.
Variables (rr : bool) (m : Z) (d : list byte).

(** One turn of the first loop, when the source holds directories at [p]
    and above it. *)
Lemma process_source_item_keeps_conflict fs p' fs1 l :
  (forall p1 p2, p = p1 ++ p2 -> is_dir fs (s ++ p1) = true) ->
  lookup fs (r ++ p) = Some (File rr m d) ->
  process_source_item self fs p' = (fs1, l) ->
  lookup fs1 (r ++ p) = Some (File rr m d).
Proof.
  intros Hdirs Lq H. unfold process_source_item in H.
  destruct (is_dir fs (s ++ p')) eqn:Hsd.
  - destruct (negb (exists_ fs (r ++ p'))).
    + destruct (create_directory_cases _ _ _ _ H) as [[M _]|[-> _]]; [|assumption].
      apply lookup_file_stat in Lq. apply lookup_file_stat.
      destruct (mkdir_parents_stat _ _ _ (r ++ p) M) as [E|(_ & E & _)]; congruence.
    + injection H as <- _. assumption.
  - assert (Hb : r ++ p <> r ++ p').
    { intros E. apply app_inv_head in E. subst p'.
      rewrite (Hdirs p [] (eq_sym (app_nil_r p))) in Hsd. discriminate Hsd. }
    assert (Hbb : r ++ p <> (r ++ p') ++ [basename (s ++ p')]).
    { intros E. rewrite <- app_assoc in E. apply app_inv_head in E.
      rewrite (Hdirs p' _ E) in Hsd. discriminate Hsd. }
    destruct (negb (exists_ fs (r ++ p'))).
    + apply (copy_file_keeps_file _ _ _ _ _ _ _ _ _ H Lq Hb Hbb).
    + destruct (files_are_identical fs _ _) as [[|] l0]; cbn [negb] in H.
      * injection H as <- _. assumption.
      * destruct (copy_file fs _ _) as [fs3 l3] eqn:C. injection H as <- _.
        apply (copy_file_keeps_file _ _ _ _ _ _ _ _ _ C Lq Hb Hbb).
Qed.

Lemma additive_pass_keeps_conflict items : forall fs fs' l,
  (forall p1 p2, p = p1 ++ p2 -> is_dir fs (s ++ p1) = true) ->
  lookup fs (r ++ p) = Some (File rr m d) ->
  additive_pass self items fs = (fs', l) ->
  lookup fs' (r ++ p) = Some (File rr m d).
Proof.
  induction items as [|p' items IH]; intros fs fs' l Hdirs Lq H;
    cbn [additive_pass] in H.
  - injection H as <- _. assumption.
  - destruct (process_source_item self fs p') as [fs1 l1] eqn:E1.
    destruct (additive_pass self items fs1) as [fs2 l2] eqn:E2.
    injection H as <- _. apply (IH fs1 fs2 l2); [| |exact E2].
    + intros p1 p2 E.
      apply (process_source_item_is_dir self _ _ _ _ _ E1 (Hdirs p1 p2 E)).
    + apply (process_source_item_keeps_conflict fs p' fs1 l1 Hdirs Lq E1).
Qed.

(** The second loop leaves alone what stands at a relative path of the
    source structure. *)
Lemma subtractive_pass_keeps_listed source_structure items : forall fs fs' l,
  (forall q1 q2, In (q1 ++ q2) source_structure -> q1 <> [] ->
                 In q1 source_structure) ->
  In p source_structure ->
  (forall q, In q items -> q <> []) ->
  subtractive_pass self source_structure items fs = (fs', l) ->
  stat fs' (r ++ p) = stat fs (r ++ p).
Proof.
  induction items as [|q0 items IH]; intros fs fs' l Hclosed Hp Hne H;
    cbn [subtractive_pass] in H.
  - injection H as <- _. reflexivity.
  - destruct (process_replica_item self source_structure fs q0) as [fs1 l1] eqn:E1.
    destruct (subtractive_pass self source_structure items fs1) as [fs2 l2] eqn:E2.
    injection H as <- _.
    rewrite (IH fs1 fs2 l2 Hclosed Hp (fun q Hq => Hne q (or_intror Hq)) E2).
    unfold process_replica_item in E1.
    destruct (set_mem path_eq_dec q0 source_structure) eqn:Hm.
    + injection E1 as <- _. reflexivity.
    + apply (remove_path_stat_frame _ _ _ _ _ E1).
      rewrite is_prefix_app_same.
      destruct (is_prefix q0 p) eqn:F; [|reflexivity]. exfalso.
      apply is_prefix_split in F. destruct F as [x ->].
      apply (set_mem_complete1 path_eq_dec) in Hm. apply Hm.
      apply (Hclosed q0 x Hp). apply Hne. left. reflexivity.
Qed.

(** X24. A conflict that no pass resolves: a replica file that stands
    where the source enumerates to a directory is neither replaced nor
    removed nor rewritten by a call of [synchronize]; after the call it is
    the file it was, whether the call returns or raises and whatever else
    the pass does or fails to do. *)
Theorem synchronize_keeps_conflicting_file (fs : node) :
  wf fs = true ->
  In p (snapshot fs (source_path self)) ->
  is_dir fs (source_path self ++ p) = true ->
  lookup fs (replica_path self ++ p) = Some (File rr m d) ->
  match synchronize self fs with
  | Done (fs', _) | Raised (fs', _) =>
      lookup fs' (replica_path self ++ p) = Some (File rr m d)
  end.
Proof.
  intros Hwf Hin Hsd Lq.
  destruct (synchronize_cases self fs) as
    [[_ ->]|[(_ & _ & ->)|(_ & fs0 & fs1 & l3 & fs2 & l4 & M & A & B & ->)]];
    try assumption.
  pose proof (snapshot_not_root _ _ _ Hin) as Hp.
  assert (Hr : is_dir fs r = true).
  { destruct (lookup_above_dir _ _ _ _ Lq Hp) as (k & es & Hk).
    unfold is_dir. rewrite Hk. reflexivity. }
  rewrite (mkdir_parents_id _ _ Hr) in M. injection M as <-.
  assert (Hdirs : forall p1 p2, p = p1 ++ p2 -> is_dir fs (s ++ p1) = true).
  { intros p1 p2 E. destruct p2 as [|c p2].
    - rewrite app_nil_r in E. subst p1. assumption.
    - apply (snapshot_iff fs s p Hwf) in Hin. destruct Hin as (_ & _ & Hin).
      apply is_dir_stat. exists true. apply (Hin p1 (c :: p2) E). discriminate. }
  pose proof (additive_pass_keeps_conflict _ _ _ _ Hdirs Lq A) as L1.
  apply lookup_file_stat. apply lookup_file_stat in L1. rewrite <- L1.
  apply (subtractive_pass_keeps_listed (snapshot fs s) (iter (snapshot fs r))
           fs1 fs2 l4 (fun q1 q2 => snapshot_prefix_closed fs s q1 q2 Hwf) Hin);
    [|exact B].
  intros q Hq. apply (snapshot_not_root fs r q).
  apply (Permutation_in q (iter_perm _) Hq).
Qed.

End Conflict.

(** * Removals that do not wait for the copies *)




Section Removals.

Context `{P : Platform}.
Variable self : FolderSynchronizer.

Local Abbreviation s := (source_path self).
Local Abbreviation r := (replica_path self).




End Removals.

(** * Copies that do not wait for the other items *)



Section Copies.

Context `{P : Platform}.
Variable self : FolderSynchronizer.

Local Abbreviation s := (source_path self).
Local Abbreviation r := (replica_path self).

Hypothesis Hdisj1 : is_prefix s r = false.
Hypothesis Hdisj2 : is_prefix r s = false.

(** The relative path of a source file that can be read. *)
Variable p : path.
Variables (m : Z) (d : list byte).








End Copies.

(** * The further properties on the sample filesystems *)

Open Scope string_scope.
Open Scope list_scope.

(** X4 on [fs_typical]: creating [docs] in the replica. *)
Lemma create_directory_effect_witness :
  (forall q, is_prefix q ["data"; "replica"; "docs"] = true ->
             is_dir fs_typical_docs q = true) /\
  (forall q e, stat fs_typical q = Some e -> stat fs_typical_docs q = Some e) /\
  create_directory fs_typical_docs ["data"; "replica"; "docs"] =
    (fs_typical_docs, [(INFO, CREATED_DIRECTORY ["data"; "replica"; "docs"])]).
Proof.
  apply (create_directory_effect fs_typical fs_typical_docs ["data"; "replica"; "docs"]).
  reflexivity.
Defined.

(** X5 on [fs_typical]: copying [x.txt] over the replica's. *)
Lemma copy_file_then_identical_witness :
  exists m d,
    lookup fs_typical ["data"; "source"; "x.txt"] = Some (File true m d) /\
    lookup fs_typical_copied ["data"; "source"; "x.txt"] = Some (File true m d) /\
    lookup fs_typical_copied ["data"; "replica"; "x.txt"] = Some (File true m d) /\
    @files_are_identical sample_platform fs_typical_copied
      ["data"; "source"; "x.txt"] ["data"; "replica"; "x.txt"] = (true, []).
Proof.
  apply (@copy_file_then_identical sample_platform fs_typical fs_typical_copied
           ["data"; "source"; "x.txt"] ["data"; "replica"; "x.txt"]);
    reflexivity.
Defined.

(** X6 on [fs_one_unreadable]. *)
Lemma copy_file_keeps_destination_witness :
  exists fs',
    copy_file fs_one_unreadable ["data"; "source"; "f"] ["data"; "replica"; "f"] =
      (fs', [(ERROR, Error_copying ["data"; "source"; "f"] ["data"; "replica"; "f"])]) /\
    lookup fs' ["data"; "replica"; "f"] =
      lookup fs_one_unreadable ["data"; "replica"; "f"] /\
    forall q e, stat fs_one_unreadable q = Some e -> stat fs' q = Some e.
Proof.
  apply (copy_file_keeps_destination fs_one_unreadable
           ["data"; "source"; "f"] ["data"; "replica"; "f"]).
  reflexivity.
Defined.

(** X7 on the replica of [fs_empty_source]: removing [b] twice. *)
Lemma remove_path_twice_witness :
  exists_ fs_empty_source_half ["data"; "replica"; "b"] = false /\
  remove_path fs_empty_source_half ["data"; "replica"; "b"] =
    (fs_empty_source_half, []).
Proof.
  apply (remove_path_twice fs_empty_source fs_empty_source_half
           ["data"; "replica"; "b"]
           [(INFO, REMOVED_DIRECTORY ["data"; "replica"; "b"])]);
    reflexivity.
Defined.

(** X8 on [fs_typical_synced]. *)
Lemma process_source_item_skips_identical_witness :
  @process_source_item sample_platform side_by_side fs_typical_synced ["x.txt"] =
  (fs_typical_synced, []).
Proof.
  apply (@process_source_item_skips_identical sample_platform side_by_side
           fs_typical_synced ["x.txt"] 0%Z 0%Z (list_byte_of_string "hello"));
    reflexivity.
Defined.



(** X12 on [fs_typical]: the passes that follow the first. *)
Lemma synchronize_raises_first_or_never_witness :
  exists fs'' l',
    @synchronize sample_platform side_by_side
      (@repeat_synchronize sample_platform side_by_side 2 fs_typical_synced) =
    Done (fs'', l').
Proof.
  apply (@synchronize_raises_first_or_never sample_platform side_by_side
           fs_typical fs_typical_synced log_typical 2).
  vm_compute. reflexivity.
Defined.

(** X13 on [fs_file_over_dir]: the replica directory [a] is a directory
    after the loop. *)
Lemma additive_pass_keeps_entries_witness :
  exists e',
    stat fs_file_over_dir_copied ["data"; "replica"; "a"] = Some e' /\
    is_edir e' = is_edir (EDir true).
Proof.
  apply (@additive_pass_keeps_entries sample_platform side_by_side [["a"]]
           fs_file_over_dir fs_file_over_dir_copied
           [(INFO, COPIED ["data"; "source"; "a"] ["data"; "replica"; "a"])]);
    vm_compute; reflexivity.
Defined.

(** X14 on [fs_empty_source]: the second loop and the source root. *)
Lemma subtractive_pass_frame_witness :
  stat fs_empty_source_synced src = stat fs_empty_source src.
Proof.
  apply (subtractive_pass_frame side_by_side []
           [["b"]; ["a.txt"]; ["b"; "c.txt"]] fs_empty_source fs_empty_source_synced
           [(INFO, REMOVED_DIRECTORY ["data"; "replica"; "b"]);
            (INFO, REMOVED_FILE ["data"; "replica"; "a.txt"])]).
  - vm_compute. reflexivity.
  - intros rel_path [<-|[<-|[<-|[]]]] _; reflexivity.
Defined.




(** X19 on an empty source without a replica: the replica root appears and
    the log does not tell. *)
Lemma synchronize_silent_witness :
  mkdir_parents fs_no_replica rep = Some fs_empty_source_synced /\
  (is_dir fs_no_replica rep = true -> fs_empty_source_synced = fs_no_replica).
Proof.
  apply (@synchronize_silent sample_platform side_by_side fs_no_replica
           fs_empty_source_synced
           [(INFO, Starting_synchronization src rep);
            (INFO, Synchronization_completed)]).
  - vm_compute. reflexivity.
  - reflexivity.
  - reflexivity.
Defined.


(** X21 on [fs_typical]: the second pass. *)
Lemma synchronize_second_pass_idle_witness :
  (exists log2,
     @synchronize sample_platform side_by_side fs_typical_synced =
     Done (fs_typical_synced, log2) /\
     no_mutations log2 = true) /\
  forall n, @repeat_synchronize sample_platform side_by_side n fs_typical_synced =
            fs_typical_synced.
Proof.
  apply (@synchronize_second_pass_idle sample_platform side_by_side fs_typical
           fs_typical_synced log_typical).
  - reflexivity.
  - reflexivity.
  - reflexivity.
  - apply (all_listable_stat fs_typical rep
             (Dir true [("x.txt", text "world"); ("a.txt", text "a");
                        ("b", Dir true [("c.txt", text "c")])]));
      reflexivity.
  - intros q a b Hin. vm_compute in Hin.
    destruct Hin as [<-|[<-|[<-|[]]]]; vm_compute; intros Ha Hb;
      try discriminate; injection Ha as <-; injection Hb as <-; reflexivity.
  - intros q r1 m1 d1 r2 m2 d2 Hin. vm_compute in Hin.
    destruct Hin as [<-|[<-|[<-|[]]]]; vm_compute; intros Ha Hb Hd;
      try discriminate.
    injection Ha as <- <- <-. injection Hb as <- <- <-.
    vm_compute in Hd. discriminate Hd.
  - vm_compute. reflexivity.
  - reflexivity.
Defined.

(** X22 on [fs_source_is_file]. *)
Lemma synchronize_file_source_empties_replica_witness :
  is_dir fs_source_is_file_synced rep = true /\
  snapshot fs_source_is_file_synced rep = [].
Proof.
  apply (@synchronize_file_source_empties_replica sample_platform side_by_side
           fs_source_is_file fs_source_is_file_synced
           [(INFO, Starting_synchronization src rep);
            (INFO, REMOVED_DIRECTORY ["data"; "replica"; "b"]);
            (INFO, REMOVED_FILE ["data"; "replica"; "a.txt"]);
            (INFO, Synchronization_completed)]).
  - reflexivity.
  - reflexivity.
  - reflexivity.
  - reflexivity.
  - apply (all_listable_stat fs_source_is_file rep
             (Dir true [("a.txt", text "a"); ("b", Dir true [("c.txt", text "c")])]));
      reflexivity.
  - vm_compute. reflexivity.
  - reflexivity.
Defined.

(** X23 on [fs_both_unreadable]: the two files pass for identical, and the
    log holds the two read errors. *)
Lemma synchronize_reports_unreadable_source_witness :
  no_errors
    [(INFO, Starting_synchronization src rep);
     (ERROR, Error_reading_file ["data"; "source"; "f"]);
     (ERROR, Error_reading_file ["data"; "replica"; "f"]);
     (INFO, Synchronization_completed)] = false.
Proof.
  apply (@synchronize_reports_unreadable_source sample_platform side_by_side
           fs_both_unreadable fs_both_unreadable
           [(INFO, Starting_synchronization src rep);
            (ERROR, Error_reading_file ["data"; "source"; "f"]);
            (ERROR, Error_reading_file ["data"; "replica"; "f"]);
            (INFO, Synchronization_completed)]
           ["f"] 0%Z (list_byte_of_string "new!")).
  - reflexivity.
  - reflexivity.
  - vm_compute. left. reflexivity.
  - reflexivity.
  - vm_compute. reflexivity.
Defined.

(** X24 on [fs_dir_over_file]: the replica file [a] after a pass. *)
Lemma synchronize_keeps_conflicting_file_witness :
  match @synchronize sample_platform side_by_side fs_dir_over_file with
  | Done (fs', _) | Raised (fs', _) =>
      lookup fs' ["data"; "replica"; "a"] = Some (text "x")
  end.
Proof.
  apply (@synchronize_keeps_conflicting_file sample_platform side_by_side ["a"]
           true 0%Z (list_byte_of_string "x") fs_dir_over_file).
  - reflexivity.
  - vm_compute. left. reflexivity.
  - reflexivity.
  - reflexivity.
Defined.



Close Scope string_scope.
